(** * Retrieval pipeline of the RAG service: chunker, normaliser, vector index,
      context assembly and the question-answering response.

    The Python sources are embedded shallowly: a [str] is the list of its
    Unicode code points, integers are [Z], a [while] loop is a fuelled
    recursion, an exception is a value of the result type, and the external
    libraries (FAISS, the embedding model, the completion service, the
    relational store, the interpreter's set iteration order) are parameters
    with their documented contracts. *)

From Stdlib Require Import String Ascii ZArith NArith Lia Bool List Permutation Sorted.
From Stdlib Require DecimalNat.
Import ListNotations.
Local Open Scope Z_scope.

(* ================================================================== *)
(** * Part I. Definitions                                              *)
(* ================================================================== *)

(** ** Python strings *)
Module PyStr.

(** A Python [str]: a sequence of Unicode code points. *)
Definition pystr : Type := list N.

(** Literals: the code points of an ASCII literal. *)
Definition lit (s : string) : pystr := map N_of_ascii (list_ascii_of_string s).

Definition NL : N := 10%N.       (* '\n' *)
Definition SP : N := 32%N.       (* ' '  *)
Definition DOT : N := 46%N.      (* '.'  *)
Definition BANG : N := 33%N.     (* '!'  *)
Definition QMARK : N := 63%N.    (* '?'  *)
Definition DQUOTE : N := 34%N.   (* double quote *)
Definition SQUOTE : N := 39%N.   (* single quote *)

Definition pystr_eq_dec : forall a b : pystr, {a = b} + {a <> b} :=
  list_eq_dec N.eq_dec.

Definition str_eqb (a b : pystr) : bool :=
  if pystr_eq_dec a b then true else false.

(** [len(s)] *)
Definition len (s : pystr) : Z := Z.of_nat (length s).

(** Truthiness of a string: [if s:]. *)
Definition truthy (s : pystr) : bool :=
  match s with [] => false | _ :: _ => true end.

(** [Py_UNICODE_ISSPACE]: the code points [str.strip()], [str.split()] and the
    regular-expression class [\s] treat as whitespace. *)
Definition is_space (c : N) : bool :=
  ((9 <=? c) && (c <=? 13) || (28 <=? c) && (c <=? 32)
   || (c =? 133) || (c =? 160) || (c =? 5760)
   || (8192 <=? c) && (c <=? 8202)
   || (c =? 8232) || (c =? 8233) || (c =? 8239) || (c =? 8287)
   || (c =? 12288))%N.

(** [s.lstrip()], [s.rstrip()], [s.strip()] *)
Fixpoint lstrip (s : pystr) : pystr :=
  match s with
  | [] => []
  | c :: r => if is_space c then lstrip r else s
  end.

Definition rstrip (s : pystr) : pystr := rev (lstrip (rev s)).

Definition strip (s : pystr) : pystr := rstrip (lstrip s).

(** [s.split()]: the maximal runs of non-whitespace code points.  [cur] is
    the word being read, reversed. *)
Fixpoint split_from (cur : pystr) (s : pystr) : list pystr :=
  match s with
  | [] => match cur with [] => [] | _ => [rev cur] end
  | c :: r =>
      if is_space c
      then match cur with [] => split_from [] r | _ => rev cur :: split_from [] r end
      else split_from (c :: cur) r
  end.

Definition split (s : pystr) : list pystr := split_from [] s.

(** Slice bounds as CPython adjusts them ([PySlice_AdjustIndices], step 1):
    a negative index counts from the end, then both are clipped to
    [0, len]. *)
Definition adjust (n : Z) (i : Z) : Z :=
  if i <? 0 then Z.max 0 (i + n) else Z.min i n.

(** The code points at positions [lo, hi) (naturals, no adjustment). *)
Definition sub (s : pystr) (lo hi : nat) : pystr :=
  firstn (hi - lo) (skipn lo s).

(** [s[start:stop]] *)
Definition slice (s : pystr) (start stop : Z) : pystr :=
  let lo := adjust (len s) start in
  let hi := adjust (len s) stop in
  sub s (Z.to_nat lo) (Z.to_nat hi).

(** Largest position in [lo, lo + n) holding [c], or -1. *)
Fixpoint rfind_in (c : N) (s : pystr) (lo n : nat) : Z :=
  match n with
  | O => -1
  | S n' =>
      match nth_error s (lo + n')%nat with
      | Some x => if (x =? c)%N then Z.of_nat (lo + n') else rfind_in c s lo n'
      | None => rfind_in c s lo n'
      end
  end.

(** [s.rfind(c, start, stop)] for a one-character needle [c]. *)
Definition rfind (s : pystr) (c : N) (start stop : Z) : Z :=
  let lo := adjust (len s) start in
  let hi := adjust (len s) stop in
  rfind_in c s (Z.to_nat lo) (Z.to_nat hi - Z.to_nat lo).

(** Is [p] a prefix of [s]? *)
Fixpoint starts_with (p s : pystr) : bool :=
  match p, s with
  | [], _ => true
  | _ :: _, [] => false
  | a :: p', b :: s' => (a =? b)%N && starts_with p' s'
  end.

(** [s.replace(old, new)] for a non-empty [old]: non-overlapping occurrences,
    left to right.  [skip] counts the code points of a match still to drop. *)
Fixpoint replace_from (old new : pystr) (skip : nat) (s : pystr) : pystr :=
  match s with
  | [] => []
  | c :: r =>
      match skip with
      | S k => replace_from old new k r
      | O =>
          if starts_with old s
          then new ++ replace_from old new (length old - 1) r
          else c :: replace_from old new O r
      end
  end.

(** [s.replace(old, new)]; an empty [old] matches before every code point
    and at the end. *)
Definition replace (s old new : pystr) : pystr :=
  match old with
  | [] => new ++ flat_map (fun c => c :: new) s
  | _ :: _ => replace_from old new O s
  end.

(** Comparison of strings: lexicographic on code points. *)
Fixpoint str_compare (a b : pystr) : comparison :=
  match a, b with
  | [], [] => Eq
  | [], _ :: _ => Lt
  | _ :: _, [] => Gt
  | x :: a', y :: b' =>
      match (x ?= y)%N with
      | Eq => str_compare a' b'
      | o => o
      end
  end.

End PyStr.
Import PyStr.

(** ** Settings (config.py) *)
Module Settings.
Definition CHUNK_SIZE : Z := 500.
Definition CHUNK_OVERLAP : Z := 50.
Definition TOP_K_RESULTS : Z := 5.
End Settings.

(** ** utils/chunking.py *)
Module Chunking.

(** The end of the window that starts at [start]: nominally
    [start + chunk_size], pulled back to just after the last '.' or newline
    of the window's last 100 characters when the window does not reach the
    end of the text. *)
Definition window_end (text : pystr) (chunk_size start : Z) : Z :=
  let end_ := start + chunk_size in
  if end_ <? len text then
    let search_start := Z.max (end_ - 100) start in
    let last_period := rfind text DOT search_start end_ in
    let last_newline := rfind text NL search_start end_ in
    let last_boundary := Z.max last_period last_newline in
    if last_boundary >? start then last_boundary + 1 else end_
  else end_.

(** Where the cursor goes after a window ending at [end_]. *)
Definition next_start (text : pystr) (overlap end_ : Z) : Z :=
  if end_ <? len text then end_ - overlap else end_.

(** The [while start < len(text)] loop; [None] when the fuel runs out. *)
Fixpoint chunk_loop (fuel : nat) (text : pystr) (chunk_size overlap : Z)
    (start : Z) (chunks : list pystr) : option (list pystr) :=
  match fuel with
  | O => None
  | S fuel' =>
      if start <? len text then
        let end_ := window_end text chunk_size start in
        let chunk := strip (slice text start end_) in
        let chunks' := if truthy chunk then chunks ++ [chunk] else chunks in
        chunk_loop fuel' text chunk_size overlap (next_start text overlap end_) chunks'
      else Some chunks
  end.

(** [chunk_text(text, chunk_size=None, overlap=None)] *)
Definition chunk_text (fuel : nat) (text : pystr)
    (chunk_size overlap : option Z) : option (list pystr) :=
  let chunk_size := match chunk_size with Some c => c | None => Settings.CHUNK_SIZE end in
  let overlap := match overlap with Some o => o | None => Settings.CHUNK_OVERLAP end in
  if negb (truthy text) || (len text =? 0) then Some []
  else chunk_loop fuel text chunk_size overlap 0 [].

(** The same loop, recording the windows [text[start:end]] before they are
    stripped and filtered. *)
Fixpoint window_loop (fuel : nat) (text : pystr) (chunk_size overlap : Z)
    (start : Z) : option (list pystr) :=
  match fuel with
  | O => None
  | S fuel' =>
      if start <? len text then
        let end_ := window_end text chunk_size start in
        match window_loop fuel' text chunk_size overlap (next_start text overlap end_) with
        | Some ws => Some (slice text start end_ :: ws)
        | None => None
        end
      else Some []
  end.

(** Parameters under which the cursor moves forward at every window: a
    window pulled back to a sentence boundary still ends after the overlap
    it gives back. *)
Definition advancing (chunk_size overlap : Z) : Prop :=
  0 <= overlap < chunk_size /\ (overlap <= 1 \/ overlap + 100 <= chunk_size).

(** A text on which the cursor stops advancing with [chunk_size = 10] and
    [overlap = 2]. *)
Definition stuck_text : pystr := lit "xa.bbbbbbbbbbbbbbbbbbbbbb".

(** Windows put back together: each window after the first drops the [n]
    code points it shares with the end of the one before it. *)
Inductive stitched : list pystr -> pystr -> Prop :=
| stitched_nil : stitched [] []
| stitched_one w : stitched [w] w
| stitched_cons w1 w2 ws t n :
    stitched (w2 :: ws) t ->
    (n <= length w1)%nat -> (n <= length w2)%nat ->
    skipn (length w1 - n) w1 = firstn n w2 ->
    stitched (w1 :: w2 :: ws) (w1 ++ skipn n t).

(** What the loop does to the windows to obtain the chunks. *)
Definition chunks_of_windows (ws : list pystr) : list pystr :=
  filter truthy (map strip ws).

End Chunking.
Import Chunking.

(** ** utils/cleaning.py *)
Module Cleaning.

(** [re.sub(r'\s+', ' ', text)]: every maximal run of whitespace becomes one
    space.  [in_run] tells that the previous code point was whitespace. *)
Fixpoint collapse_spaces (in_run : bool) (s : pystr) : pystr :=
  match s with
  | [] => []
  | c :: r =>
      if is_space c
      then (if in_run then collapse_spaces true r else SP :: collapse_spaces true r)
      else c :: collapse_spaces false r
  end.

(** The class [[\x00-\x08\x0b-\x0c\x0e-\x1f\x7f-\x9f]]. *)
Definition is_control (c : N) : bool :=
  ((c <=? 8) || (11 <=? c) && (c <=? 12) || (14 <=? c) && (c <=? 31)
   || (127 <=? c) && (c <=? 159))%N.

Definition strip_controls (s : pystr) : pystr :=
  filter (fun c => negb (is_control c)) s.

(** The class [[.!?]]. *)
Definition is_terminal (c : N) : bool :=
  ((c =? DOT) || (c =? BANG) || (c =? QMARK))%N.

(** What the substitution leaves of a run of terminal punctuation, given
    reversed: a run of one stays, a longer run is replaced by group 1, the
    last code point matched. *)
Definition flush_run (run : pystr) : pystr := firstn 1 run.

(** [re.sub(r'([.!?]){2,}', r'\1', text)] *)
Fixpoint collapse_punct (run : pystr) (s : pystr) : pystr :=
  match s with
  | [] => flush_run run
  | c :: r =>
      if is_terminal c then collapse_punct (c :: run) r
      else flush_run run ++ c :: collapse_punct [] r
  end.

(** The first argument of the second quote replacement as the file spells
    it: the text between the two triple quotes of that source line. *)
Definition quote_pattern : pystr :=
  lit ", " ++ [DQUOTE; SQUOTE; DQUOTE] ++ lit ").replace(".

(** [clean_text(text)] *)
Definition clean_text (text : pystr) : pystr :=
  if negb (truthy text) then []
  else
    let text := collapse_spaces false text in
    let text := strip_controls text in
    let text := replace (replace text [DQUOTE] [DQUOTE]) [DQUOTE] [DQUOTE] in
    let text := replace text quote_pattern [SQUOTE] in
    let text := collapse_punct [] text in
    strip text.

(** [extract_meaningful_text(text, min_length=50)]; [None] is Python's
    [None]. *)
Definition extract_meaningful_text (text : pystr) (min_length : option Z)
    : option pystr :=
  let min_length := match min_length with Some m => m | None => 50 end in
  let cleaned := clean_text text in
  if len cleaned <? min_length then None
  else
    let words := split cleaned in
    if Z.of_nat (length words) <? 5 then None
    else Some cleaned.

End Cleaning.
Import Cleaning.

(** ** services/faiss_service.py *)
Module Faiss.

(** The FAISS library and numpy's float32 conversion, as the service uses
    them.  [flat_search d xb q k] is [IndexFlatL2.search] on an index of
    dimension [d] holding the rows [xb], for one query row [q]: the
    distances and labels of row 0, or [None] when the library raises. *)
Record FaissLib : Type := {
  scalar : Type;
  astype_float32 : scalar -> scalar;
  flat_search : Z -> list (list scalar) -> list scalar -> Z
                -> option (list scalar * list Z)
}.

(** The library's documented result shape: [k] distances and [k] labels. *)
Definition flat_search_shape (L : FaissLib) : Prop :=
  forall d xb q k ds ls,
    flat_search L d xb q k = Some (ds, ls) ->
    length ds = Z.to_nat k /\ length ls = Z.to_nat k.

(** What a call did: returned normally or raised. *)
Inductive outcome : Type := Returned | Raised.

(** A file of the storage directory. *)
Inductive file (A : Type) : Type :=
| Absent
| Corrupt
| Holds (a : A).
Arguments Absent {A}.
Arguments Corrupt {A}.
Arguments Holds {A} a.

Definition exists_ {A} (f : file A) : bool :=
  match f with Absent => false | _ => true end.

(** [l[i]] on a Python list: negative positions count from the end;
    [None] is [IndexError]. *)
Definition getitem {A} (l : list A) (i : Z) : option A :=
  let n := Z.of_nat (length l) in
  if (0 <=? i) && (i <? n) then nth_error l (Z.to_nat i)
  else if (i <? 0) && (- n <=? i) then nth_error l (Z.to_nat (i + n))
  else None.

Section WithLib.
Context (L : FaissLib).

Definition vec : Type := list (scalar L).

(** [faiss.IndexFlatL2]: its dimension and the stored rows. *)
Record IndexFlatL2 : Type := { d : Z; xb : list vec }.

Definition ntotal (ix : IndexFlatL2) : Z := Z.of_nat (length (xb ix)).

(** [index.add(x)] for a two-dimensional array [x]: the library rejects rows
    of another dimension ([None]). *)
Definition index_add (ix : IndexFlatL2) (x : list vec) : option IndexFlatL2 :=
  if forallb (fun v => Z.of_nat (length v) =? d ix) x
  then Some {| d := d ix; xb := xb ix ++ x |}
  else None.

Record FAISSService : Type := {
  dimension : Z;
  index : option IndexFlatL2;
  metadata : list pystr
}.

Record Disk : Type := {
  index_file : file IndexFlatL2;
  metadata_file : file (list pystr)
}.

(** The service object together with its storage directory. *)
Record World : Type := { svc : FAISSService; disk : Disk }.

(** [create_index()] *)
Definition create_index (s : FAISSService) : FAISSService :=
  {| dimension := dimension s;
     index := Some {| d := dimension s; xb := [] |};
     metadata := [] |}.

(** [add_vectors(embeddings, chunk_ids)] *)
Definition add_vectors (s : FAISSService) (embeddings : list vec)
    (chunk_ids : list pystr) : outcome * FAISSService :=
  let s := match index s with None => create_index s | Some _ => s end in
  let embeddings := map (map (astype_float32 L)) embeddings in
  match index s with
  | None => (Raised, s)
  | Some ix =>
      match index_add ix embeddings with
      | None => (Raised, s)
      | Some ix' =>
          (Returned,
           {| dimension := dimension s; index := Some ix';
              metadata := metadata s ++ chunk_ids |})
      end
  end.

(** [[self.metadata[idx] for idx in indices if idx < len(self.metadata)]] *)
Fixpoint gather (meta : list pystr) (indices : list Z) : option (list pystr) :=
  match indices with
  | [] => Some []
  | idx :: rest =>
      if idx <? Z.of_nat (length meta) then
        match getitem meta idx with
        | None => None
        | Some c =>
            match gather meta rest with
            | None => None
            | Some cs => Some (c :: cs)
            end
        end
      else gather meta rest
  end.

(** [search(query_embedding, k)]: the pair (distances, chunk ids), or [None]
    when it raises.  The query is one row: [reshape(1, -1)] keeps its
    entries in order. *)
Definition search (s : FAISSService) (query_embedding : vec) (k : Z)
    : option (list (scalar L) * list pystr) :=
  match index s with
  | None => Some ([], [])
  | Some ix =>
      if ntotal ix =? 0 then Some ([], [])
      else
        let q := map (astype_float32 L) query_embedding in
        let k := Z.min k (ntotal ix) in
        match flat_search L (d ix) (xb ix) q k with
        | None => None
        | Some (distances, indices) =>
            match gather (metadata s) indices with
            | None => None
            | Some result_chunk_ids => Some (distances, result_chunk_ids)
            end
        end
  end.

(** [save_index()]: both files are written; writing a missing index
    raises. *)
Definition save_index (w : World) : outcome * World :=
  match index (svc w) with
  | None => (Raised, w)
  | Some ix =>
      (Returned,
       {| svc := svc w;
          disk := {| index_file := Holds ix;
                     metadata_file := Holds (metadata (svc w)) |} |})
  end.

(** [load_index()]: an unreadable file raises inside the [try], and the
    handler starts a new index. *)
Definition load_index (w : World) : World :=
  let s := svc w in
  if exists_ (index_file (disk w)) && exists_ (metadata_file (disk w)) then
    match index_file (disk w) with
    | Holds ix =>
        match metadata_file (disk w) with
        | Holds m =>
            {| svc := {| dimension := dimension s; index := Some ix; metadata := m |};
               disk := disk w |}
        | _ =>
            {| svc := create_index
                        {| dimension := dimension s; index := Some ix;
                           metadata := metadata s |};
               disk := disk w |}
        end
    | _ => {| svc := create_index s; disk := disk w |}
    end
  else {| svc := create_index s; disk := disk w |}.

(** [FAISSService(dimension)] on a storage directory. *)
Definition init (dimension : Z) (dk : Disk) : World :=
  let w := {| svc := {| dimension := dimension; index := None; metadata := [] |};
              disk := dk |} in
  if exists_ (index_file dk) then load_index w
  else {| svc := create_index (svc w); disk := dk |}.

(** [get_total_vectors()] *)
Definition get_total_vectors (s : FAISSService) : Z :=
  match index s with Some ix => ntotal ix | None => 0 end.

(** [reset_index()] *)
Definition reset_index (w : World) : outcome * World :=
  save_index {| svc := create_index (svc w); disk := disk w |}.

(** The calls a client can make on the service. *)
Inductive op : Type :=
| OpCreate
| OpAdd (embeddings : list vec) (chunk_ids : list pystr)
| OpSearch (query_embedding : vec) (k : Z)
| OpSave
| OpLoad
| OpReset
| OpRestart (dimension : Z).

(** One call; an exception leaves the object as the call left it.
    [OpRestart] constructs the service anew on the same directory. *)
Definition step (w : World) (o : op) : World :=
  match o with
  | OpCreate => {| svc := create_index (svc w); disk := disk w |}
  | OpAdd e c => {| svc := snd (add_vectors (svc w) e c); disk := disk w |}
  | OpSearch _ _ => w
  | OpSave => snd (save_index w)
  | OpLoad => load_index w
  | OpReset => snd (reset_index w)
  | OpRestart dimension => init dimension (disk w)
  end.

Definition run (w : World) (ops : list op) : World := fold_left step ops w.

(** Every [add_vectors] call passes as many embeddings as chunk ids. *)
Definition batch_ok (o : op) : Prop :=
  match o with
  | OpAdd e c => length e = length c
  | _ => True
  end.

(** The persisted pair of files has the cardinality the interface
    promises: as many chunk ids as vectors. *)
Definition disk_ok (dk : Disk) : Prop :=
  match index_file dk, metadata_file dk with
  | Holds ix, Holds m => length (xb ix) = length m
  | _, _ => True
  end.

(** The stored rows, and each row with the chunk id at its position. *)
Definition vectors (s : FAISSService) : list vec :=
  match index s with Some ix => xb ix | None => [] end.

Definition stored (s : FAISSService) : list (vec * pystr) :=
  combine (vectors s) (metadata s).

(** The object holds an index, as many chunk ids as vectors, and the files
    on disk agree with each other. *)
Definition consistent (w : World) : Prop :=
  index (svc w) <> None
  /\ length (vectors (svc w)) = length (metadata (svc w))
  /\ disk_ok (disk w).

End WithLib.

Arguments d {L} _.
Arguments xb {L} _.
Arguments dimension {L} _.
Arguments index {L} _.
Arguments metadata {L} _.
Arguments index_file {L} _.
Arguments metadata_file {L} _.
Arguments svc {L} _.
Arguments disk {L} _.
Arguments OpCreate {L}.
Arguments OpAdd {L} _ _.
Arguments OpSearch {L} _ _.
Arguments OpSave {L}.
Arguments OpLoad {L}.
Arguments OpReset {L}.
Arguments OpRestart {L} _.
Arguments ntotal {L} _.
Arguments index_add {L} _ _.
Arguments create_index {L} _.
Arguments add_vectors {L} _ _ _.
Arguments search {L} _ _ _.
Arguments save_index {L} _.
Arguments load_index {L} _.
Arguments init {L} _ _.
Arguments get_total_vectors {L} _.
Arguments reset_index {L} _.
Arguments step {L} _ _.
Arguments run {L} _ _.
Arguments batch_ok {L} _.
Arguments disk_ok {L} _.
Arguments consistent {L} _.
Arguments vectors {L} _.
Arguments stored {L} _.

(** A reference instance of the library over integer coordinates: exact
    conversion, exhaustive squared-distance search, nearest first, padded
    with label -1. *)
Module Ref.

Fixpoint sqdist (a b : list Z) : Z :=
  match a, b with
  | x :: a', y :: b' => (x - y) * (x - y) + sqdist a' b'
  | _, _ => 0
  end.

Fixpoint insert_hit (h : Z * Z) (l : list (Z * Z)) : list (Z * Z) :=
  match l with
  | [] => [h]
  | h' :: r => if fst h <=? fst h' then h :: l else h' :: insert_hit h r
  end.

Fixpoint hits (q : list Z) (i : Z) (rows : list (list Z)) : list (Z * Z) :=
  match rows with
  | [] => []
  | r :: rest => insert_hit (sqdist q r, i) (hits q (i + 1) rest)
  end.

Definition pad (n : nat) (l : list (Z * Z)) : list (Z * Z) :=
  firstn n (l ++ repeat (2 ^ 128, -1) n).

Definition ref_search (dim : Z) (rows : list (list Z)) (q : list Z) (k : Z)
    : option (list Z * list Z) :=
  if (k <=? 0) || negb (Z.of_nat (length q) =? dim) then None
  else
    let top := pad (Z.to_nat k) (hits q 0 rows) in
    Some (map fst top, map snd top).

Definition lib : FaissLib :=
  {| scalar := Z; astype_float32 := fun x => x; flat_search := ref_search |}.

(** A storage directory without files, and a session on it. *)
Definition empty_disk : Disk lib :=
  {| index_file := Absent; metadata_file := Absent |}.

Definition session : list (op lib) :=
  [ OpAdd (L := lib) [[0; 0]; [3; 4]] [lit "doc1_chunk_0"; lit "doc1_chunk_1"];
    OpSave;
    OpAdd (L := lib) [[1; 1; 1]] [lit "doc2_chunk_0"];
    OpSearch (L := lib) [0; 1] 5;
    OpLoad;
    OpAdd (L := lib) [[6; 8]] [lit "doc2_chunk_0"];
    OpReset;
    OpRestart 2;
    OpAdd (L := lib) [[1; 2]; [2; 1]; [5; 5]]
          [lit "doc3_chunk_0"; lit "doc3_chunk_1"; lit "doc3_chunk_2"] ].

End Ref.

End Faiss.
Import Faiss.

(** ** agents/qa_agent.py *)
Module QA.

(** A chunk record: the row of [document_chunks] and the dictionary
    [get_chunk_contents] builds from it. *)
Record Chunk : Type := {
  chunk_id : pystr;
  document_id : pystr;
  content : pystr;
  chunk_index : Z
}.

(** [key(a) <= key(b)] for the key [(document_id, chunk_index)]: tuples
    compare component by component. *)
Definition key_leb (a b : Chunk) : bool :=
  match str_compare (document_id a) (document_id b) with
  | Lt => true
  | Gt => false
  | Eq => chunk_index a <=? chunk_index b
  end.

(** [sorted(chunks, key=...)]: Python's sort is stable; the stable sort of a
    list is unique, here computed by insertion. *)
Fixpoint insert_by_key (x : Chunk) (l : list Chunk) : list Chunk :=
  match l with
  | [] => [x]
  | y :: r => if key_leb x y then x :: l else y :: insert_by_key x r
  end.

Definition sorted_by_key (chunks : list Chunk) : list Chunk :=
  fold_right insert_by_key [] chunks.

(** Does the chunk have the key [(doc, idx)]? *)
Definition has_key (doc : pystr) (idx : Z) (c : Chunk) : bool :=
  str_eqb (document_id c) doc && (chunk_index c =? idx).

Definition source_header : pystr := lit "[Source]" ++ [NL].
Definition source_marker : pystr := [NL] ++ lit "---" ++ [NL].
Definition blank_line : pystr := [NL; NL].

(** [chunk["document_id"] != current_doc], where [current_doc] starts as
    [None]. *)
Definition new_document (current_doc : option pystr) (c : Chunk) : bool :=
  match current_doc with
  | None => true
  | Some doc => negb (str_eqb (document_id c) doc)
  end.

(** The [for chunk in sorted_chunks] loop: the strings it appends to
    [context_parts], given the value of [current_doc] on entry. *)
Fixpoint context_parts (current_doc : option pystr) (l : list Chunk)
    : list pystr :=
  match l with
  | [] => []
  | c :: r =>
      (if new_document current_doc c
       then (match current_doc with Some _ => [source_marker] | None => [] end)
            ++ [source_header]
       else [])
      ++ [content c; blank_line]
      ++ context_parts
           (if new_document current_doc c then Some (document_id c) else current_doc)
           r
  end.

(** [construct_context(chunks)] *)
Definition construct_context (chunks : list Chunk) : pystr :=
  match chunks with
  | [] => []
  | _ :: _ => strip (concat (context_parts None (sorted_by_key chunks)))
  end.

(** The sorted chunks cut where [document_id] changes. *)
Fixpoint group_by_document (l : list Chunk) : list (list Chunk) :=
  match l with
  | [] => []
  | c :: r =>
      match group_by_document r with
      | (c' :: g) :: gs =>
          if str_eqb (document_id c) (document_id c')
          then (c :: c' :: g) :: gs
          else [c] :: (c' :: g) :: gs
      | _ => [[c]]
      end
  end.

(** One document's block: the header, then each content followed by a
    blank line. *)
Definition render_group (g : list Chunk) : pystr :=
  source_header ++ concat (map (fun c => content c ++ blank_line) g).

(** The contents of a group, and the blocks after the first. *)
Definition group_body (g : list Chunk) : pystr :=
  concat (map (fun c => content c ++ blank_line) g).

Definition later_groups (gs : list (list Chunk)) : pystr :=
  concat (map (fun g' => source_marker ++ render_group g') gs).

(** Blocks with exactly one marker between neighbours and none in front. *)
Definition render_groups (gs : list (list Chunk)) : pystr :=
  match gs with
  | [] => []
  | g :: rest =>
      render_group g ++ concat (map (fun g' => source_marker ++ render_group g') rest)
  end.

(** The document of a group: that of its first chunk. *)
Definition group_document (g : list Chunk) : pystr :=
  match g with [] => [] | c :: _ => document_id c end.

(** The distinct elements in order of first appearance. *)
Fixpoint first_appearance (l : list pystr) : list pystr :=
  match l with
  | [] => []
  | x :: r => x :: filter (fun y => negb (str_eqb y x)) (first_appearance r)
  end.

(** The result dictionary of [answer_question]. *)
Inductive Response : Type :=
| Success (answer : pystr) (sources : list pystr) (num_sources : Z)
          (num_chunks_used : option Z)
| Failure (error : pystr).

Definition success (r : Response) : bool :=
  match r with Success _ _ _ _ => true | Failure _ => false end.

Definition sources (r : Response) : list pystr :=
  match r with Success _ s _ _ => s | Failure _ => [] end.

Definition num_sources (r : Response) : Z :=
  match r with Success _ _ n _ => n | Failure _ => 0 end.

Definition no_information : pystr :=
  lit "I couldn't find any relevant information in the uploaded documents to answer your question.".

Definition no_content : pystr :=
  lit "I found relevant chunks but couldn't retrieve their content. Please try again.".

Definition apology : pystr :=
  lit "I apologize, but I encountered an error while generating the answer.".

(** The interpreter's documented contract for [list(set(xs))]: every element
    of [xs] once, in an order the program does not choose. *)
Definition set_iter_ok (set_iter : list pystr -> list pystr) : Prop :=
  forall l, NoDup (set_iter l) /\ (forall x, In x (set_iter l) <-> In x l).

Section WithLib.
Context (L : FaissLib).

(** The collaborators of the agent: the embedding model ([inl msg]: it
    raised with that message), the vector index, the chunk table ([None]:
    the session raised), the completion service ([None]: it raised) and the
    iteration order of a set of strings. *)
Record Env : Type := {
  embed_text : pystr -> pystr + vec L;
  faiss_service : FAISSService L;
  db_rows : option (list Chunk);
  generate_answer_from_context : pystr -> pystr -> option pystr;
  set_iter : list pystr -> list pystr
}.

(** [embed_question(question)]: the exception is raised again. *)
Definition embed_question (e : Env) (question : pystr) : pystr + vec L :=
  embed_text e question.

(** [retrieve_relevant_chunks(question_embedding, k=None)] *)
Definition retrieve_relevant_chunks (e : Env) (question_embedding : vec L)
    (k : option Z) : list pystr :=
  let k := match k with Some k => k | None => Settings.TOP_K_RESULTS end in
  match search (faiss_service e) question_embedding k with
  | None => []
  | Some (_, chunk_ids) =>
      match chunk_ids with
      | [] => []
      | _ :: _ => chunk_ids
      end
  end.

(** [get_chunk_contents(chunk_ids)] *)
Definition get_chunk_contents (e : Env) (chunk_ids : list pystr) : list Chunk :=
  match db_rows e with
  | None => []
  | Some rows =>
      flat_map
        (fun id =>
           match find (fun row => str_eqb (chunk_id row) id) rows with
           | Some db_chunk =>
               [{| chunk_id := chunk_id db_chunk;
                   document_id := document_id db_chunk;
                   content := content db_chunk;
                   chunk_index := chunk_index db_chunk |}]
           | None => []
           end)
        chunk_ids
  end.

(** [generate_answer(question, context)] *)
Definition generate_answer (e : Env) (question context : pystr) : pystr :=
  match generate_answer_from_context e question context with
  | Some answer => answer
  | None => apology
  end.

(** [answer_question(question)] *)
Definition answer_question (e : Env) (question : pystr) : Response :=
  match embed_question e question with
  | inl msg => Failure (lit "QA error: " ++ msg)
  | inr question_embedding =>
      match retrieve_relevant_chunks e question_embedding None with
      | [] => Success no_information [] 0 None
      | (_ :: _) as chunk_ids =>
          match get_chunk_contents e chunk_ids with
          | [] => Success no_content [] 0 None
          | (_ :: _) as chunks =>
              let context := construct_context chunks in
              let answer := generate_answer e question context in
              let source_docs := set_iter e (map document_id chunks) in
              Success answer source_docs (Z.of_nat (length source_docs))
                      (Some (Z.of_nat (length chunks)))
          end
      end
  end.

(** The chunk records a question retrieves. *)
Definition retrieved_chunks (e : Env) (question : pystr) : list Chunk :=
  match embed_question e question with
  | inl _ => []
  | inr question_embedding =>
      get_chunk_contents e (retrieve_relevant_chunks e question_embedding None)
  end.

End WithLib.

Arguments embed_text {L} _ _.
Arguments faiss_service {L} _.
Arguments db_rows {L} _.
Arguments generate_answer_from_context {L} _ _ _.
Arguments set_iter {L} _ _.
Arguments retrieve_relevant_chunks {L} _ _ _.
Arguments get_chunk_contents {L} _ _.
Arguments generate_answer {L} _ _ _.
Arguments answer_question {L} _ _.
Arguments retrieved_chunks {L} _ _.

(** A small deployment on the reference library: two documents with one
    indexed chunk each, and a chunk id without a record. *)
Module Demo.

Definition rows : list Chunk :=
  [ {| chunk_id := lit "doc_b_chunk_0"; document_id := lit "doc_b";
       content := lit "Beta."; chunk_index := 0 |};
    {| chunk_id := lit "doc_a_chunk_0"; document_id := lit "doc_a";
       content := lit "Alpha."; chunk_index := 0 |} ].

Definition indexed : FAISSService Ref.lib :=
  svc (run (init 2 Ref.empty_disk)
           [ OpAdd (L := Ref.lib) [[0; 0]; [3; 4]; [9; 9]]
                   [lit "doc_b_chunk_0"; lit "doc_a_chunk_0"; lit "doc_c_chunk_0"] ]).

Definition question : pystr := lit "What is alpha?".

(** The interpreter's sets here iterate in insertion order. *)
Definition env : Env Ref.lib :=
  {| embed_text := fun _ => (inr [1; 1] : pystr + vec Ref.lib);
     faiss_service := indexed;
     db_rows := Some rows;
     generate_answer_from_context := fun _ context => Some context;
     set_iter := first_appearance |}.

End Demo.

End QA.
Import QA.

(** ** utils/chunking.py, the sentence-based splitter *)
Module Sentences.

(** [s.split(sep)] for a one-character separator; [cur] is the piece being
    read, reversed. *)
Fixpoint split_on_from (sep : N) (cur : pystr) (s : pystr) : list pystr :=
  match s with
  | [] => [rev cur]
  | c :: r =>
      if (c =? sep)%N then rev cur :: split_on_from sep [] r
      else split_on_from sep (c :: cur) r
  end.

Definition split_on (s : pystr) (sep : N) : list pystr := split_on_from sep [] s.

(** [sep.join(parts)] *)
Fixpoint join (sep : pystr) (parts : list pystr) : pystr :=
  match parts with
  | [] => []
  | [x] => x
  | x :: rest => x ++ sep ++ join sep rest
  end.

(** [l[start:stop]] on a list. *)
Definition slice_list {A} (l : list A) (start stop : Z) : list A :=
  let n := Z.of_nat (length l) in
  let lo := Z.to_nat (adjust n start) in
  let hi := Z.to_nat (adjust n stop) in
  firstn (hi - lo) (skipn lo l).

(** [[s.strip() + '.' for s in text.split('.') if s.strip()]] *)
Definition sentences_of (text : pystr) : list pystr :=
  map (fun s => strip s ++ [DOT])
      (filter (fun s => truthy (strip s)) (split_on text DOT)).

(** The [while i < len(sentences)] loop; [None] when the fuel runs out. *)
Fixpoint sentence_loop (fuel : nat) (sentences : list pystr)
    (max_sentences overlap_sentences : Z) (i : Z) (chunks : list pystr)
    : option (list pystr) :=
  match fuel with
  | O => None
  | S fuel' =>
      if i <? Z.of_nat (length sentences) then
        let chunk_sentences := slice_list sentences i (i + max_sentences) in
        let chunk := join [SP] chunk_sentences in
        sentence_loop fuel' sentences max_sentences overlap_sentences
          (i + (max_sentences - overlap_sentences)) (chunks ++ [chunk])
      else Some chunks
  end.

(** [chunk_text_by_sentences(text, max_sentences=5, overlap_sentences=1)] *)
Definition chunk_text_by_sentences (fuel : nat) (text : pystr)
    (max_sentences overlap_sentences : option Z) : option (list pystr) :=
  let max_sentences := match max_sentences with Some m => m | None => 5 end in
  let overlap_sentences := match overlap_sentences with Some o => o | None => 1 end in
  let sentences := sentences_of text in
  match sentences with
  | [] => Some []
  | _ :: _ => sentence_loop fuel sentences max_sentences overlap_sentences 0 []
  end.

(** The number of passes of the loop over [n] sentences with a positive
    step. *)
Definition passes (n step : Z) : Z := (n + step - 1) / step.

End Sentences.

(** ** Shapes of strings used in the statements *)
Module Shape.

(** [a] occurs in [s] as a contiguous block. *)
Definition infix {A} (a s : list A) : Prop :=
  exists pre post, s = pre ++ a ++ post.

(** Two terminal punctuation marks in a row. *)
Fixpoint doubled_terminal (s : pystr) : bool :=
  match s with
  | a :: (b :: _) as r => is_terminal a && is_terminal b || doubled_terminal r
  | _ => false
  end.

(** A code point [clean_text] lets through: outside the control class, and
    a plain space if it is whitespace. *)
Definition clean_char (c : N) : bool :=
  negb (is_control c) && (negb (is_space c) || (c =? SP)%N).

(** The chunk id a label selects in the side-table: the one at its
    position, and for the label -1 the last one. *)
Definition id_at (meta : list pystr) (label : Z) : pystr :=
  nth (Z.to_nat (if label =? -1 then Z.of_nat (length meta) - 1 else label)) meta [].

End Shape.

(** ** api/ask.py *)
Module Api.

Record QuestionRequest : Type := {
  question : pystr;
  max_sources : option Z
}.

Record QuestionResponse : Type := {
  answer : pystr;
  sources : list pystr;
  num_sources : Z;
  confidence : pystr
}.

(** What the endpoint does: a response, or an [HTTPException]. *)
Inductive HttpResult : Type :=
| Http200 (body : QuestionResponse)
| HTTPException (status_code : Z) (detail : pystr).

(** ["high" if n >= 3 else "medium" if n >= 1 else "low"] *)
Definition confidence_of (n : Z) : pystr :=
  if n >=? 3 then lit "high" else if n >=? 1 then lit "medium" else lit "low".

Section WithLib.
Context (L : FaissLib).

(** [ask_question(request)]; the agent returns a dictionary in every case,
    so the last handler is not entered. *)
Definition ask_question (e : Env L) (request : QuestionRequest) : HttpResult :=
  if negb (truthy (question request)) || (len (strip (question request)) =? 0)
  then HTTPException 400 (lit "Question cannot be empty")
  else
    match answer_question e (question request) with
    | Failure error => HTTPException 500 error
    | Success answer sources num_sources _ =>
        Http200 {| answer := answer;
                   sources := sources;
                   num_sources := num_sources;
                   confidence := confidence_of num_sources |}
    end.

End WithLib.
Arguments ask_question {L} _ _.

End Api.

(** ** agents/indexing_agent.py *)
Module Indexing.

(** [str(n)] for a natural number: its decimal digits. *)
Fixpoint uint_codes (u : Decimal.uint) : pystr :=
  match u with
  | Decimal.Nil => []
  | Decimal.D0 u => 48%N :: uint_codes u
  | Decimal.D1 u => 49%N :: uint_codes u
  | Decimal.D2 u => 50%N :: uint_codes u
  | Decimal.D3 u => 51%N :: uint_codes u
  | Decimal.D4 u => 52%N :: uint_codes u
  | Decimal.D5 u => 53%N :: uint_codes u
  | Decimal.D6 u => 54%N :: uint_codes u
  | Decimal.D7 u => 55%N :: uint_codes u
  | Decimal.D8 u => 56%N :: uint_codes u
  | Decimal.D9 u => 57%N :: uint_codes u
  end.

Definition str_of_nat (n : nat) : pystr := uint_codes (Nat.to_uint n).

(** [f"{document_id}_chunk_{idx}"] *)
Definition make_chunk_id (document_id : pystr) (idx : nat) : pystr :=
  document_id ++ lit "_chunk_" ++ str_of_nat idx.

(** The [for idx, chunk_content in enumerate(chunks)] loop, from position
    [idx] on. *)
Fixpoint chunk_objects_from (idx : nat) (document_id : pystr)
    (chunks : list pystr) : list Chunk :=
  match chunks with
  | [] => []
  | chunk_content :: rest =>
      {| chunk_id := make_chunk_id document_id idx;
         document_id := document_id;
         content := chunk_content;
         chunk_index := Z.of_nat idx |}
      :: chunk_objects_from (S idx) document_id rest
  end.

(** [chunk_document_text(text, document_id)]; [None] when the chunker has
    not returned within the fuel. *)
Definition chunk_document_text (fuel : nat) (text document_id : pystr)
    : option (list Chunk) :=
  match chunk_text fuel text (Some Settings.CHUNK_SIZE) (Some Settings.CHUNK_OVERLAP) with
  | None => None
  | Some chunks => Some (chunk_objects_from 0 document_id chunks)
  end.

(** numpy's message for a row position outside the array. *)
Definition index_error (i n : nat) : pystr :=
  lit "index " ++ str_of_nat i ++ lit " is out of bounds for axis 0 with size "
  ++ str_of_nat n.

(** The rows of [document_chunks] have unique chunk ids. *)
Fixpoint unique_ids (ids : list pystr) : bool :=
  match ids with
  | [] => true
  | x :: r => negb (existsb (str_eqb x) r) && unique_ids r
  end.

(** The result dictionary of [index_document]. *)
Inductive IndexResult : Type :=
| Indexed (num_chunks : Z) (total_vectors : Z)
| NotIndexed (error : pystr).

Section WithLib.
Context (L : FaissLib).

(** The collaborators of the agent: the embedding model ([inl msg]: it
    raised with that message) and whether the database accepts a
    session. *)
Record Services : Type := {
  encode : list pystr -> pystr + list (vec L);
  database_up : bool
}.

(** What the agent changes: the vector index with its directory, and the
    table [document_chunks] in row order. *)
Record System : Type := {
  faiss : World L;
  document_chunks : list Chunk
}.

(** [embedding_service.embed_texts(texts)] *)
Definition embed_texts (sv : Services) (texts : list pystr)
    : pystr + list (vec L) :=
  match texts with
  | [] => inr []
  | _ :: _ => encode sv texts
  end.

(** The [for idx, chunk in enumerate(chunks)] loop of [generate_embeddings]:
    [chunk["embedding"] = embeddings[idx]]. *)
Fixpoint attach_embeddings (embeddings : list (vec L)) (idx : nat)
    (chunks : list Chunk) : pystr + list (Chunk * vec L) :=
  match chunks with
  | [] => inr []
  | chunk :: rest =>
      match nth_error embeddings idx with
      | None => inl (index_error idx (length embeddings))
      | Some row =>
          match attach_embeddings embeddings (S idx) rest with
          | inl msg => inl msg
          | inr done => inr ((chunk, row) :: done)
          end
      end
  end.

(** [generate_embeddings(chunks)]: an exception is raised again. *)
Definition generate_embeddings (sv : Services) (chunks : list Chunk)
    : pystr + list (Chunk * vec L) :=
  match chunks with
  | [] => inr []
  | _ :: _ =>
      match embed_texts sv (map content chunks) with
      | inl msg => inl msg
      | inr embeddings => attach_embeddings embeddings 0 chunks
      end
  end.

(** [store_in_vector_db(chunks)] *)
Definition store_in_vector_db (w : World L) (chunks : list (Chunk * vec L))
    : bool * World L :=
  match chunks with
  | [] => (false, w)
  | _ :: _ =>
      let embeddings := map snd chunks in
      let chunk_ids := map (fun c => chunk_id (fst c)) chunks in
      match add_vectors (svc w) embeddings chunk_ids with
      | (Raised, s) => (false, {| svc := s; disk := disk w |})
      | (Returned, s) =>
          match save_index {| svc := s; disk := disk w |} with
          | (Raised, w') => (false, w')
          | (Returned, w') => (true, w')
          end
      end
  end.

(** [store_chunk_metadata(chunks)]: the rows are committed together when
    the session closes; a failed commit is rolled back. *)
Definition store_chunk_metadata (sv : Services) (table : list Chunk)
    (chunks : list (Chunk * vec L)) : bool * list Chunk :=
  let rows := map fst chunks in
  if database_up sv && unique_ids (map chunk_id (table ++ rows))
  then (true, table ++ rows)
  else (false, table).

(** The batch with chunk ids [ids] has gone into the index of [w], giving
    [w']: one row per chunk id appended, the chunk ids appended, and both
    written to the directory. *)
Definition appended (w w' : World L) (ids : list pystr) : Prop :=
  exists ix ix' rows,
    index (svc w) = Some ix
    /\ index (svc w') = Some ix'
    /\ d ix' = d ix
    /\ xb ix' = xb ix ++ rows
    /\ length rows = length ids
    /\ metadata (svc w') = metadata (svc w) ++ ids
    /\ disk w' = {| index_file := Holds ix';
                    metadata_file := Holds (metadata (svc w')) |}.

(** [index_document(text, document_id)] *)
Definition index_document (fuel : nat) (sv : Services) (sys : System)
    (text document_id : pystr) : option (IndexResult * System) :=
  match chunk_document_text fuel text document_id with
  | None => None
  | Some [] => Some (NotIndexed (lit "Failed to create chunks"), sys)
  | Some ((_ :: _) as chunks) =>
      match generate_embeddings sv chunks with
      | inl msg => Some (NotIndexed (lit "Indexing error: " ++ msg), sys)
      | inr chunks_with_embeddings =>
          match store_in_vector_db (faiss sys) chunks_with_embeddings with
          | (false, w) =>
              Some (NotIndexed (lit "Failed to store vectors"),
                    {| faiss := w; document_chunks := document_chunks sys |})
          | (true, w) =>
              match store_chunk_metadata sv (document_chunks sys)
                      chunks_with_embeddings with
              | (false, table) =>
                  Some (NotIndexed (lit "Failed to store metadata"),
                        {| faiss := w; document_chunks := table |})
              | (true, table) =>
                  Some (Indexed (Z.of_nat (length chunks))
                                (get_total_vectors (svc w)),
                        {| faiss := w; document_chunks := table |})
              end
          end
      end
  end.

End WithLib.

Arguments encode {L} _ _.
Arguments database_up {L} _.
Arguments faiss {L} _.
Arguments document_chunks {L} _.
Arguments embed_texts {L} _ _.
Arguments attach_embeddings {L} _ _ _.
Arguments generate_embeddings {L} _ _.
Arguments store_in_vector_db {L} _ _.
Arguments store_chunk_metadata {L} _ _ _.
Arguments index_document {L} _ _ _ _ _.
Arguments appended {L} _ _ _.

(** A document of three sentences indexed into the empty reference
    deployment. *)
Module Demo.

Definition services : Services Ref.lib :=
  {| encode := fun texts =>
       (inr (map (fun t => [len t; 1]) texts) : pystr + list (vec Ref.lib));
     database_up := true |}.

Definition empty_system : System Ref.lib :=
  {| faiss := init 2 Ref.empty_disk; document_chunks := [] |}.

Definition text : pystr := lit "One. Two words. Three.".

Definition document : pystr := lit "doc_0123456789ab".

(** The system after indexing the document. *)
Definition indexed_system : System Ref.lib :=
  match index_document (S (length text)) services empty_system text document with
  | Some (_, sys) => sys
  | None => empty_system
  end.



(** A question-answering deployment over the indexed system. *)
Definition reader : Env Ref.lib :=
  {| embed_text := fun q => (inr [len q; 1] : pystr + vec Ref.lib);
     faiss_service := svc (faiss indexed_system);
     db_rows := Some (document_chunks indexed_system);
     generate_answer_from_context := fun _ context => Some context;
     set_iter := first_appearance |}.

(** The same deployment after [reset_index], and one whose completion
    service raises. *)
Definition reader_after_reset : Env Ref.lib :=
  {| embed_text := embed_text reader;
     faiss_service := svc (snd (reset_index (faiss indexed_system)));
     db_rows := db_rows reader;
     generate_answer_from_context := generate_answer_from_context reader;
     set_iter := set_iter reader |}.

Definition reader_without_completion : Env Ref.lib :=
  {| embed_text := embed_text reader;
     faiss_service := faiss_service reader;
     db_rows := db_rows reader;
     generate_answer_from_context := fun _ _ => None;
     set_iter := set_iter reader |}.

End Demo.

End Indexing.


(* ================================================================== *)
(** * Part II. Properties                                              *)
(* ================================================================== *)

(** Case analysis on the condition of the conditional in the goal, or in
    a hypothesis. *)
Ltac case_if :=
  match goal with
  | |- context [if ?b then _ else _] => destruct b
  end.

Ltac case_if_in H :=
  match type of H with
  | context [if ?b then _ else _] => destruct b
  end.

(** ** Slices and searches of a string *)

Lemma sub_to_end (s : pystr) (lo hi : nat) :
  (length s <= hi)%nat -> sub s lo hi = skipn lo s.
Proof.
  intros H. unfold sub. apply firstn_all2. rewrite length_skipn. lia.
Qed.

Lemma sub_length (s : pystr) (lo hi : nat) :
  (lo <= hi)%nat -> (hi <= length s)%nat -> length (sub s lo hi) = (hi - lo)%nat.
Proof.
  intros H1 H2. unfold sub. rewrite length_firstn, length_skipn. lia.
Qed.

Lemma sub_app_skipn (s : pystr) (lo hi : nat) :
  (lo <= hi)%nat -> sub s lo hi ++ skipn hi s = skipn lo s.
Proof.
  intros H. unfold sub.
  replace hi with ((hi - lo) + lo)%nat at 2 by lia.
  rewrite <- skipn_skipn. apply firstn_skipn.
Qed.

Lemma sub_firstn (s : pystr) (lo hi n : nat) :
  (lo + n <= hi)%nat -> firstn n (sub s lo hi) = sub s lo (lo + n).
Proof.
  intros H. unfold sub. rewrite firstn_firstn.
  f_equal. lia.
Qed.

Lemma sub_skipn (s : pystr) (lo hi n : nat) :
  (lo + n <= hi)%nat -> skipn n (sub s lo hi) = sub s (lo + n) hi.
Proof.
  intros H. unfold sub. rewrite skipn_firstn_comm, skipn_skipn.
  f_equal; [lia | f_equal; lia].
Qed.

Lemma adjust_nonneg (n i : Z) : 0 <= i -> adjust n i = Z.min i n.
Proof.
  intros H. unfold adjust. destruct (Z.ltb_spec i 0); [lia | reflexivity].
Qed.

(** A slice with a cursor inside the text and an end after the cursor. *)
Lemma slice_inside (s : pystr) (a b : Z) :
  0 <= a <= len s -> a <= b ->
  slice s a b = sub s (Z.to_nat a) (Z.to_nat (Z.min b (len s))).
Proof.
  intros Ha Hb. unfold slice. rewrite !adjust_nonneg by lia.
  f_equal. f_equal. lia.
Qed.

Lemma rfind_in_range (c : N) (s : pystr) (lo n : nat) :
  rfind_in c s lo n = -1
  \/ Z.of_nat lo <= rfind_in c s lo n < Z.of_nat (lo + n).
Proof.
  induction n as [|n IH]; simpl.
  - now left.
  - destruct (nth_error s (lo + n)) as [x|].
    + destruct (x =? c)%N.
      * right. lia.
      * destruct IH as [IH|IH]; [now left | right; lia].
    + destruct IH as [IH|IH]; [now left | right; lia].
Qed.

Lemma rfind_range (s : pystr) (c : N) (a b : Z) :
  0 <= a -> a <= b -> b <= len s ->
  rfind s c a b = -1 \/ a <= rfind s c a b < b.
Proof.
  intros Ha Hab Hb. unfold rfind. rewrite !adjust_nonneg by lia.
  destruct (rfind_in_range c s (Z.to_nat (Z.min a (len s)))
              (Z.to_nat (Z.min b (len s)) - Z.to_nat (Z.min a (len s)))) as [H|H].
  - now left.
  - right. lia.
Qed.

(** ** The chunker *)

Lemma window_end_bounds (text : pystr) (chunk_size overlap start : Z) :
  advancing chunk_size overlap ->
  0 <= start -> start + chunk_size < len text ->
  start + overlap < window_end text chunk_size start <= start + chunk_size.
Proof.
  intros [Hov Hadv] Hs Hlt. unfold window_end.
  destruct (Z.ltb_spec (start + chunk_size) (len text)) as [_|]; [|lia].
  set (ss := Z.max (start + chunk_size - 100) start).
  assert (Hss : 0 <= ss /\ ss <= start + chunk_size) by (unfold ss; lia).
  pose proof (rfind_range text DOT ss (start + chunk_size)
                ltac:(lia) ltac:(lia) ltac:(lia)) as Hp.
  pose proof (rfind_range text NL ss (start + chunk_size)
                ltac:(lia) ltac:(lia) ltac:(lia)) as Hn.
  destruct (Z.gtb_spec (Z.max (rfind text DOT ss (start + chunk_size))
                              (rfind text NL ss (start + chunk_size))) start)
    as [Hgt|Hle]; unfold ss in *; lia.
Qed.

Lemma window_end_last (text : pystr) (chunk_size start : Z) :
  len text <= start + chunk_size ->
  window_end text chunk_size start = start + chunk_size.
Proof.
  intros H. unfold window_end.
  destruct (Z.ltb_spec (start + chunk_size) (len text)); [lia | reflexivity].
Qed.

(** The chunks are the windows, stripped, without the empty ones. *)
Lemma chunk_loop_windows (fuel : nat) (text : pystr) (chunk_size overlap : Z) :
  forall start acc ws,
    window_loop fuel text chunk_size overlap start = Some ws ->
    chunk_loop fuel text chunk_size overlap start acc
    = Some (acc ++ chunks_of_windows ws).
Proof.
  induction fuel as [|fuel IH]; intros start acc ws H; simpl in *.
  - discriminate.
  - destruct (start <? len text).
    + destruct (window_loop fuel text chunk_size overlap
                  (next_start text overlap (window_end text chunk_size start)))
        as [ws'|] eqn:E; [|discriminate].
      injection H as <-.
      rewrite (IH _ _ _ E). unfold chunks_of_windows. simpl.
      destruct (truthy (strip (slice text start (window_end text chunk_size start)))).
      * now rewrite <- app_assoc.
      * reflexivity.
    + injection H as <-. unfold chunks_of_windows. simpl. now rewrite app_nil_r.
Qed.

(** With advancing parameters the loop ends within [len text - start + 1]
    tests of its condition, and its windows tile the rest of the text. *)
Lemma window_loop_tiles (text : pystr) (chunk_size overlap : Z) :
  advancing chunk_size overlap ->
  forall fuel start,
    0 <= start < len text -> len text - start < Z.of_nat fuel ->
    exists e ws,
      window_loop fuel text chunk_size overlap start
      = Some (sub text (Z.to_nat start) (Z.to_nat e) :: ws)
      /\ start < e <= len text
      /\ (start + overlap < e \/ e = len text)
      /\ stitched (sub text (Z.to_nat start) (Z.to_nat e) :: ws)
                  (skipn (Z.to_nat start) text).
Proof.
  intros Hadv. pose proof Hadv as [Hov _].
  induction fuel as [|fuel IH]; intros start Hs Hfuel; [lia|].
  cbn [window_loop].
  destruct (Z.ltb_spec start (len text)) as [_|]; [|lia].
  destruct (Z.lt_ge_cases (start + chunk_size) (len text)) as [Hin|Hout].
  - (* the window ends inside the text *)
    pose proof (window_end_bounds text chunk_size overlap start Hadv
                  ltac:(lia) Hin) as He.
    set (e := window_end text chunk_size start) in *.
    unfold next_start. destruct (Z.ltb_spec e (len text)) as [_|]; [|lia].
    destruct (IH (e - overlap) ltac:(lia) ltac:(lia)) as (e2 & ws2 & Hrun & He2 & Hfar & Hst).
    rewrite Hrun. exists e, (sub text (Z.to_nat (e - overlap)) (Z.to_nat e2) :: ws2).
    rewrite slice_inside by lia.
    replace (Z.min e (len text)) with e by lia.
    split; [reflexivity|]. split; [lia|]. split; [left; lia|].
    assert (He2e : e <= e2) by lia.
    pose proof (stitched_cons (sub text (Z.to_nat start) (Z.to_nat e)) _ _ _
                  (Z.to_nat overlap) Hst) as Hc.
    rewrite skipn_skipn in Hc.
    replace (Z.to_nat overlap + Z.to_nat (e - overlap))%nat with (Z.to_nat e) in Hc by lia.
    rewrite sub_app_skipn in Hc by lia.
    unfold len in *.
    apply Hc.
    + rewrite sub_length by lia. lia.
    + rewrite sub_length by lia. lia.
    + rewrite sub_length by lia.
      rewrite sub_skipn by lia. rewrite sub_firstn by lia.
      f_equal; lia.
  - (* the window reaches the end of the text *)
    rewrite window_end_last by lia.
    unfold next_start. destruct (Z.ltb_spec (start + chunk_size) (len text)) as [|_]; [lia|].
    destruct fuel as [|fuel]; [lia|]. cbn [window_loop].
    destruct (Z.ltb_spec (start + chunk_size) (len text)) as [|_]; [lia|].
    exists (len text), [].
    rewrite slice_inside by lia.
    replace (Z.min (start + chunk_size) (len text)) with (len text) by lia.
    split; [reflexivity|]. split; [lia|]. split; [now right|].
    unfold len. rewrite Nat2Z.id. rewrite sub_to_end by lia. constructor.
Qed.

Lemma chunk_loop_step (fuel : nat) (text : pystr) (chunk_size overlap start : Z)
    (chunks : list pystr) :
  start < len text ->
  chunk_loop (S fuel) text chunk_size overlap start chunks
  = chunk_loop fuel text chunk_size overlap
      (next_start text overlap (window_end text chunk_size start))
      (if truthy (strip (slice text start (window_end text chunk_size start)))
       then chunks ++ [strip (slice text start (window_end text chunk_size start))]
       else chunks).
Proof.
  intros H. cbn [chunk_loop].
  destruct (Z.ltb_spec start (len text)); [reflexivity | lia].
Qed.

Lemma chunk_loop_exit (fuel : nat) (text : pystr) (chunk_size overlap start : Z)
    (chunks : list pystr) :
  len text <= start ->
  chunk_loop (S fuel) text chunk_size overlap start chunks = Some chunks.
Proof.
  intros H. cbn [chunk_loop].
  destruct (Z.ltb_spec start (len text)); [lia | reflexivity].
Qed.

Lemma lstrip_nil_iff (s : pystr) : lstrip s = [] <-> forallb is_space s = true.
Proof.
  induction s as [|c r IH]; simpl.
  - tauto.
  - destruct (is_space c); simpl; [exact IH | split; discriminate].
Qed.

Lemma lstrip_suffix (s : pystr) : exists p, s = p ++ lstrip s /\ forallb is_space p = true.
Proof.
  induction s as [|c r (p & Hp & Hsp)]; simpl.
  - now exists [].
  - destruct (is_space c) eqn:E.
    + exists (c :: p). simpl. rewrite E, Hsp. split; [congruence | reflexivity].
    + now exists [].
Qed.

Lemma forallb_rev_true {A} (f : A -> bool) (l : list A) :
  forallb f (rev l) = true -> forallb f l = true.
Proof.
  rewrite !forallb_forall. intros H x Hx. apply H. now apply in_rev in Hx.
Qed.

(** A string strips to the empty string exactly when it is all whitespace. *)
Lemma strip_truthy (s : pystr) : truthy (strip s) = negb (forallb is_space s).
Proof.
  unfold strip, rstrip.
  destruct (forallb is_space s) eqn:E; simpl.
  - apply lstrip_nil_iff in E. now rewrite E.
  - destruct (lstrip (rev (lstrip s))) as [|c r] eqn:E2.
    + exfalso. apply lstrip_nil_iff in E2. apply forallb_rev_true in E2.
      destruct (lstrip_suffix s) as (p & Hp & Hsp).
      rewrite Hp, forallb_app, Hsp, E2 in E. discriminate.
    + simpl. destruct (rev r ++ [c]) eqn:E3; [|reflexivity].
      now destruct (rev r).
Qed.

(** A text no longer than one window: one pass through the loop. *)
Lemma chunk_loop_short (fuel : nat) (text : pystr) (chunk_size overlap : Z) :
  0 < len text <= chunk_size ->
  chunk_loop (S (S fuel)) text chunk_size overlap 0 []
  = Some (if forallb is_space text then [] else [strip text]).
Proof.
  intros H. rewrite chunk_loop_step by lia.
  rewrite window_end_last by lia.
  unfold next_start. destruct (Z.ltb_spec (0 + chunk_size) (len text)); [lia|].
  rewrite chunk_loop_exit by lia.
  rewrite slice_inside by lia.
  replace (Z.min (0 + chunk_size) (len text)) with (len text) by lia.
  unfold len. rewrite Nat2Z.id. rewrite sub_to_end by lia. simpl skipn.
  rewrite strip_truthy. now destruct (forallb is_space text).
Qed.

(** The state the loop is in from its second window on. *)
Lemma stuck_loop (fuel : nat) :
  forall chunks, chunk_loop fuel stuck_text 10 2 1 chunks = None.
Proof.
  induction fuel as [|fuel IH]; intros chunks; [reflexivity|].
  rewrite chunk_loop_step by (vm_compute; reflexivity).
  assert (E : next_start stuck_text 2 (window_end stuck_text 10 1) = 1)
    by (vm_compute; reflexivity).
  rewrite E. apply IH.
Qed.

(** ** Claims about the chunker *)

(** C4, as stated, fails: the chunks of [" a"] with the default parameters
    are [["a"]]; the leading space was stripped, and no way of putting the
    chunks back together gives the text. *)
Lemma chunk_text_reconstruct_counterexample :
  lit " a" <> []
  /\ 0 <= 50 < 500
  /\ chunk_text 2 (lit " a") (Some 500) (Some 50) = Some [lit "a"]
  /\ ~ stitched [lit "a"] (lit " a").
Proof.
  split; [discriminate|]. split; [lia|]. split; [vm_compute; reflexivity|].
  intros H. inversion H.
Qed.

(** C4, amended: for a non-empty text and parameters under which the cursor
    advances, [chunk_text] returns; its chunks are the windows
    [text[start:end]] it visits, stripped, without those that strip to
    nothing; and the windows before stripping, each after the first dropping
    the characters it shares with the end of the previous one, reconstruct
    the text exactly. *)
Theorem chunk_text_windows_reconstruct (text : pystr) (chunk_size overlap : Z) :
  text <> [] ->
  advancing chunk_size overlap ->
  exists fuel ws,
    window_loop fuel text chunk_size overlap 0 = Some ws
    /\ chunk_text fuel text (Some chunk_size) (Some overlap)
       = Some (chunks_of_windows ws)
    /\ stitched ws text.
Proof.
  intros Hne Hadv.
  assert (Hlen : 0 < len text) by (destruct text; [congruence | unfold len; simpl; lia]).
  destruct (window_loop_tiles text chunk_size overlap Hadv
              (S (length text)) 0 ltac:(lia) ltac:(unfold len; lia))
    as (e & ws & Hrun & _ & _ & Hst).
  exists (S (length text)), (sub text (Z.to_nat 0) (Z.to_nat e) :: ws).
  split; [exact Hrun|]. split.
  - unfold chunk_text.
    destruct text as [|c r]; [congruence|].
    replace (negb (truthy (c :: r)) || (len (c :: r) =? 0)) with false
      by reflexivity.
    apply (chunk_loop_windows _ _ _ _ _ [] _ Hrun).
  - exact Hst.
Qed.

Lemma chunk_text_windows_reconstruct_witness :
  exists fuel ws,
    window_loop fuel (lit "One. Two words. Three.") 8 1 0 = Some ws
    /\ chunk_text fuel (lit "One. Two words. Three.") (Some 8) (Some 1)
       = Some (chunks_of_windows ws)
    /\ stitched ws (lit "One. Two words. Three.").
Proof.
  apply chunk_text_windows_reconstruct.
  - discriminate.
  - unfold advancing. lia.
Defined.

(** C5: with [overlap = 2 < chunk_size = 10] the loop never ends on
    ["xa.bbbbbbbbbbbbbbbbbbbbbb"]: the second window is pulled back to the
    full stop at position 2, the cursor returns to position 1, and every
    later window is the same.  No amount of fuel yields a result. *)
Theorem chunk_text_overlap_stalls :
  0 <= 2 < 10 /\
  forall fuel, chunk_text fuel stuck_text (Some 10) (Some 2) = None.
Proof.
  split; [lia|]. intros fuel. unfold chunk_text.
  change (negb (truthy stuck_text) || (len stuck_text =? 0)) with false.
  cbn match.
  destruct fuel as [|fuel]; [reflexivity|].
  rewrite chunk_loop_step by (vm_compute; reflexivity).
  assert (E : next_start stuck_text 2 (window_end stuck_text 10 0) = 1)
    by (vm_compute; reflexivity).
  rewrite E. apply stuck_loop.
Qed.

(** C6, as stated, fails: a text of one space is non-empty and shorter than
    the window, and it yields no chunk at all. *)
Lemma chunk_text_single_chunk_counterexample :
  lit " " <> []
  /\ len (lit " ") < 500
  /\ forall fuel r,
       chunk_text fuel (lit " ") (Some 500) (Some 50) = Some r -> length r <> 1%nat.
Proof.
  split; [discriminate|]. split; [vm_compute; reflexivity|].
  intros fuel r H. destruct fuel as [|[|fuel]]; try discriminate.
  unfold chunk_text in H. cbn match in H.
  change (negb (truthy (lit " ")) || (len (lit " ") =? 0)) with false in H.
  cbn match in H.
  rewrite chunk_loop_short in H by (vm_compute; split; [reflexivity | discriminate]).
  injection H as <-. simpl. discriminate.
Qed.

(** C6, amended: the empty string gives no chunk; a text shorter than the
    window gives exactly one chunk, the stripped text, when it has a
    character that is not whitespace, and no chunk when it is all
    whitespace. *)
Theorem chunk_text_degenerate (fuel : nat) (text : pystr) (chunk_size overlap : Z) :
  len text < chunk_size ->
  chunk_text fuel [] (Some chunk_size) (Some overlap) = Some []
  /\ chunk_text (S (S fuel)) text (Some chunk_size) (Some overlap)
     = Some (if forallb is_space text then [] else [strip text]).
Proof.
  intros H. split; [reflexivity|].
  destruct text as [|c r]; [reflexivity|].
  unfold chunk_text.
  replace (negb (truthy (c :: r)) || (len (c :: r) =? 0)) with false
    by reflexivity.
  apply chunk_loop_short. unfold len in *. simpl in *. lia.
Qed.

Lemma chunk_text_degenerate_witness :
  chunk_text 0 [] (Some 500) (Some 50) = Some []
  /\ chunk_text 2 (lit " short text ") (Some 500) (Some 50)
     = Some (if forallb is_space (lit " short text ") then []
             else [strip (lit " short text ")]).
Proof.
  apply (chunk_text_degenerate 0 (lit " short text ") 500 50).
  vm_compute. reflexivity.
Defined.

(** ** The normaliser *)

(** C9: [extract_meaningful_text] returns [None] exactly when the cleaned
    text is shorter than the minimum length (50 when none is given) or has
    fewer than five words, and the cleaned text otherwise; it is a total
    function of its arguments, so it has no other outcome. *)
Theorem extract_meaningful_text_none_iff (text : pystr) (min_length : option Z) :
  let threshold := match min_length with Some m => m | None => 50 end in
  let cleaned := clean_text text in
  (extract_meaningful_text text min_length = None
   <-> (len cleaned < threshold \/ Z.of_nat (length (split cleaned)) < 5))
  /\ (extract_meaningful_text text min_length = None
      \/ extract_meaningful_text text min_length = Some cleaned).
Proof.
  intros threshold cleaned. unfold extract_meaningful_text.
  fold threshold. fold cleaned.
  destruct (Z.ltb_spec (len cleaned) threshold) as [H1|H1].
  - split; [split; [intros _; now left | reflexivity] | now left].
  - destruct (Z.ltb_spec (Z.of_nat (length (split cleaned))) 5) as [H2|H2].
    + split; [split; [intros _; now right | reflexivity] | now left].
    + split; [split; [discriminate | lia] | now right].
Qed.

(** ** The vector index *)

Section IndexProperties.
Context {L : FaissLib}.

Lemma combine_app_same {A B} (a a' : list A) (b b' : list B) :
  length a = length b ->
  combine (a ++ a') (b ++ b') = combine a b ++ combine a' b'.
Proof.
  revert b. induction a as [|x a IH]; intros [|y b] H; simpl in *;
    try discriminate; [reflexivity|].
  f_equal. apply IH. congruence.
Qed.

Lemma create_index_consistent (s : FAISSService L) (dk : Disk L) :
  disk_ok dk -> consistent {| svc := create_index s; disk := dk |}.
Proof.
  intros H. unfold consistent. simpl. repeat split; [discriminate | exact H].
Qed.

Lemma load_index_consistent (w : World L) :
  disk_ok (disk w) -> consistent (load_index w).
Proof.
  intros H. unfold load_index.
  destruct (index_file (disk w)) as [| |ix] eqn:Ei;
    destruct (metadata_file (disk w)) as [| |m] eqn:Em; simpl;
    try (apply create_index_consistent; exact H).
  unfold consistent, vectors. simpl. repeat split; [discriminate | | exact H].
  unfold disk_ok in H. now rewrite Ei, Em in H.
Qed.

Lemma init_consistent (dim : Z) (dk : Disk L) :
  disk_ok dk -> consistent (init dim dk).
Proof.
  intros H. unfold init.
  destruct (exists_ (index_file dk)).
  - now apply load_index_consistent.
  - now apply create_index_consistent.
Qed.

Lemma index_add_rows (ix ix' : IndexFlatL2 L) (x : list (vec L)) :
  index_add ix x = Some ix' -> xb ix' = xb ix ++ x.
Proof.
  unfold index_add. case_if; [|discriminate].
  now intros [= <-].
Qed.

(** What one [add_vectors] call does to the rows and the chunk ids. *)
Lemma add_vectors_effect (s : FAISSService L) (e : list (vec L)) (c : list pystr) :
  index s <> None ->
  let r := add_vectors s e c in
  (fst r = Returned ->
   index (snd r) <> None
   /\ vectors (snd r) = vectors s ++ map (map (astype_float32 L)) e
   /\ metadata (snd r) = metadata s ++ c)
  /\ (fst r = Raised -> snd r = s).
Proof.
  intros Hix. unfold add_vectors.
  destruct (index s) as [ix|] eqn:Ei; [|congruence].
  rewrite Ei.
  destruct (index_add ix (map (map (astype_float32 L)) e)) as [ix'|] eqn:Ea; simpl.
  - split; [|discriminate]. intros _. unfold vectors. simpl. rewrite Ei.
    repeat split; [discriminate | now apply index_add_rows].
  - split; [discriminate | reflexivity].
Qed.

Lemma save_index_consistent (w : World L) :
  consistent w -> fst (save_index w) = Returned /\ consistent (snd (save_index w)).
Proof.
  intros (Hix & Hlen & Hdk). unfold save_index.
  destruct (index (svc w)) as [ix|] eqn:Ei; [|congruence]. simpl.
  split; [reflexivity|]. unfold consistent. simpl. rewrite Ei.
  repeat split; [discriminate | exact Hlen |].
  unfold disk_ok. simpl. unfold vectors in Hlen. now rewrite Ei in Hlen.
Qed.

Lemma step_consistent (w : World L) (o : op L) :
  batch_ok o -> consistent w -> consistent (step w o).
Proof.
  intros Hb Hw. pose proof Hw as (Hix & Hlen & Hdk).
  destruct o as [|e c|q k| | | |dim]; simpl.
  - now apply create_index_consistent.
  - destruct (add_vectors_effect (svc w) e c Hix) as [Hret Hraise].
    destruct (fst (add_vectors (svc w) e c)) eqn:E.
    + destruct (Hret eq_refl) as (Hi & Hv & Hm).
      unfold consistent. simpl. repeat split; [exact Hi | | exact Hdk].
      rewrite Hv, Hm, !length_app, length_map. simpl in Hb.
      f_equal; [exact Hlen | exact Hb].
    + rewrite (Hraise eq_refl). exact Hw.
  - exact Hw.
  - now apply (proj2 (save_index_consistent w Hw)).
  - now apply load_index_consistent.
  - unfold consistent. simpl. repeat split. discriminate.
  - now apply init_consistent.
Qed.

Lemma run_consistent (ops : list (op L)) :
  forall w, Forall batch_ok ops -> consistent w -> consistent (run w ops).
Proof.
  induction ops as [|o ops IH]; intros w Hb Hw; simpl.
  - exact Hw.
  - inversion Hb; subst. apply IH; [assumption|]. now apply step_consistent.
Qed.

Lemma init_has_index (dim : Z) (dk : Disk L) : index (svc (init dim dk)) <> None.
Proof.
  unfold init, load_index. simpl.
  destruct (index_file dk), (metadata_file dk); simpl; discriminate.
Qed.

(** Whatever the batches and the files, a constructed service holds an
    index. *)
Lemma step_has_index (w : World L) (o : op L) :
  index (svc w) <> None -> index (svc (step w o)) <> None.
Proof.
  intros Hix. destruct o as [|e c|q k| | | |dim]; simpl; try discriminate.
  - destruct (add_vectors_effect (svc w) e c Hix) as [Hret Hraise].
    destruct (fst (add_vectors (svc w) e c)) eqn:E.
    + now destruct (Hret eq_refl).
    + now rewrite (Hraise eq_refl).
  - exact Hix.
  - unfold save_index. destruct (index (svc w)) eqn:E; simpl; [|congruence].
    rewrite E. discriminate.
  - unfold load_index.
    destruct (index_file (disk w)), (metadata_file (disk w)); simpl; discriminate.
  - apply init_has_index.
Qed.

Lemma run_has_index (ops : list (op L)) :
  forall w, index (svc w) <> None -> index (svc (run w ops)) <> None.
Proof.
  induction ops as [|o ops IH]; intros w Hw; simpl; [exact Hw|].
  apply IH. now apply step_has_index.
Qed.

Lemma gather_length (meta : list pystr) (indices : list Z) :
  forall ids, gather meta indices = Some ids -> (length ids <= length indices)%nat.
Proof.
  induction indices as [|i rest IH]; intros ids H; simpl in *.
  - injection H as <-. simpl. lia.
  - destruct (i <? Z.of_nat (length meta)).
    + destruct (getitem meta i); [|discriminate].
      destruct (gather meta rest) as [cs|]; [|discriminate].
      injection H as <-. simpl. specialize (IH cs eq_refl). lia.
    + specialize (IH ids H). lia.
Qed.

(** C1: after construction on well-formed files and after any sequence of
    [create_index], [add_vectors] (as many embeddings as chunk ids),
    [search], [save_index], [load_index], [reset_index] and restarts, the
    index holds
    as many vectors as the side-table holds chunk ids; and a further
    [add_vectors] keeps every stored (vector, chunk id) pair at its position
    and pairs the new vectors with their own chunk ids, position by
    position, or changes nothing when it raises. *)
Theorem parallel_arrays_invariant (dim : Z) (dk : Disk L) (ops : list (op L)) :
  disk_ok dk ->
  Forall batch_ok ops ->
  let s := svc (run (init dim dk) ops) in
  get_total_vectors s = Z.of_nat (length (metadata s))
  /\ forall e c,
       let r := add_vectors s e c in
       (fst r = Returned ->
        stored (snd r) = stored s ++ combine (map (map (astype_float32 L)) e) c)
       /\ (fst r = Raised -> stored (snd r) = stored s).
Proof.
  intros Hdk Hops s.
  destruct (run_consistent ops (init dim dk) Hops (init_consistent dim dk Hdk))
    as (Hix & Hlen & _).
  fold s in Hix, Hlen. split.
  - unfold get_total_vectors, ntotal. unfold vectors in Hlen.
    destruct (index s); [|congruence]. f_equal. exact Hlen.
  - intros e c r. destruct (add_vectors_effect s e c Hix) as [Hret Hraise].
    fold r in Hret, Hraise. split.
    + intros Hr. destruct (Hret Hr) as (_ & Hv & Hm).
      unfold stored. rewrite Hv, Hm. now apply combine_app_same.
    + intros Hr. now rewrite (Hraise Hr).
Qed.

(** C2: on an index without vectors [search] returns the empty result for
    every query and every [k], and does not raise; otherwise the [k] it
    passes on is the smaller of [k] and the number of stored vectors, so it
    returns at most that many distances and no more chunk ids than
    distances. *)
Theorem search_empty_or_clamped (s : FAISSService L) (q : vec L) (k : Z) :
  flat_search_shape L ->
  (get_total_vectors s = 0 -> search s q k = Some ([], []))
  /\ search s q k = search s q (Z.min k (get_total_vectors s))
  /\ (forall ds ids,
        search s q k = Some (ds, ids) ->
        Z.of_nat (length ds) <= get_total_vectors s
        /\ (length ids <= length ds)%nat).
Proof.
  intros Hshape. unfold search, get_total_vectors.
  destruct (index s) as [ix|].
  - destruct (Z.eqb_spec (ntotal ix) 0) as [E0|E0].
    + split; [reflexivity|]. split; [reflexivity|].
      intros ds ids [= <- <-]. simpl. lia.
    + split; [intros; contradiction|]. split.
      * now rewrite <- Z.min_assoc, Z.min_id.
      * intros ds ids H.
        destruct (flat_search L (d ix) (xb ix) (map (astype_float32 L) q)
                    (Z.min k (ntotal ix))) as [[ds' ls]|] eqn:Es; [|discriminate].
        destruct (gather (metadata s) ls) as [ids'|] eqn:Eg; [|discriminate].
        injection H as <- <-.
        destruct (Hshape _ _ _ _ _ _ Es) as [Hd Hl].
        apply gather_length in Eg.
        assert (0 <= ntotal ix) by (unfold ntotal; lia).
        split; lia.
  - split; [reflexivity|]. split; [reflexivity|].
    intros ds ids [= <- <-]. simpl. lia.
Qed.

(** C3: for every state a constructed service can reach, [save_index]
    returns, and a service constructed afterwards on the same directory
    holds the same index and the same chunk ids, so that every query gives
    the same distances and chunk ids as before. *)
Theorem save_load_round_trip (dim dim' : Z) (dk : Disk L) (ops : list (op L)) :
  let w := run (init dim dk) ops in
  let saved := save_index w in
  let fresh := init dim' (disk (snd saved)) in
  fst saved = Returned
  /\ index (svc fresh) = index (svc w)
  /\ metadata (svc fresh) = metadata (svc w)
  /\ forall q k, search (svc fresh) q k = search (svc w) q k.
Proof.
  intros w saved fresh.
  pose proof (run_has_index ops (init dim dk) (init_has_index dim dk)) as Hix.
  fold w in Hix. unfold fresh, saved, save_index.
  destruct (index (svc w)) as [ix|] eqn:Ei; [|congruence].
  unfold init, load_index, search. simpl. rewrite Ei.
  repeat split.
Qed.

End IndexProperties.

Lemma ref_search_shape : flat_search_shape Ref.lib.
Proof.
  intros dim rows q k ds ls H. cbn [flat_search Ref.lib] in H.
  unfold Ref.ref_search in H. case_if_in H; [discriminate|].
  injection H as <- <-. rewrite !length_map. unfold Ref.pad.
  rewrite length_firstn, length_app, repeat_length. lia.
Qed.

Lemma parallel_arrays_invariant_witness :
  let s := svc (run (init 2 Ref.empty_disk) Ref.session) in
  get_total_vectors s = Z.of_nat (length (metadata s))
  /\ forall e c,
       let r := add_vectors s e c in
       (fst r = Returned ->
        stored (snd r) = stored s ++ combine (map (map (astype_float32 Ref.lib)) e) c)
       /\ (fst r = Raised -> stored (snd r) = stored s).
Proof.
  apply (@parallel_arrays_invariant Ref.lib 2 Ref.empty_disk Ref.session).
  - exact I.
  - unfold Ref.session. repeat constructor.
Defined.

Lemma search_empty_or_clamped_witness :
  let s := svc (run (init 2 Ref.empty_disk) Ref.session) in
  (get_total_vectors s = 0 -> search s [1; 1] 5 = Some ([], []))
  /\ search s [1; 1] 5 = search s [1; 1] (Z.min 5 (get_total_vectors s))
  /\ (forall ds ids,
        search s [1; 1] 5 = Some (ds, ids) ->
        Z.of_nat (length ds) <= get_total_vectors s
        /\ (length ids <= length ds)%nat).
Proof.
  apply (@search_empty_or_clamped Ref.lib). exact ref_search_shape.
Defined.

(** ** Order of strings and of sort keys *)

Lemma str_compare_refl (a : pystr) : str_compare a a = Eq.
Proof.
  induction a as [|x a IH]; simpl; [reflexivity|].
  now rewrite N.compare_refl.
Qed.

Lemma str_compare_eq (a b : pystr) : str_compare a b = Eq -> a = b.
Proof.
  revert b. induction a as [|x a IH]; intros [|y b] H; simpl in H;
    try discriminate; [reflexivity|].
  destruct (N.compare_spec x y) as [E|E|E]; try discriminate.
  subst. f_equal. now apply IH.
Qed.

Lemma str_compare_antisym (a b : pystr) :
  str_compare b a = CompOpp (str_compare a b).
Proof.
  revert b. induction a as [|x a IH]; intros [|y b]; simpl; try reflexivity.
  rewrite (N.compare_antisym x y).
  destruct (x ?= y)%N; simpl; [apply IH | reflexivity | reflexivity].
Qed.

Lemma str_compare_lt_trans (a b c : pystr) :
  str_compare a b = Lt -> str_compare b c = Lt -> str_compare a c = Lt.
Proof.
  revert b c. induction a as [|x a IH]; intros [|y b] [|z c] H1 H2;
    simpl in *; try discriminate; try reflexivity.
  destruct (N.compare_spec x y) as [E1|E1|E1]; try discriminate;
    destruct (N.compare_spec y z) as [E2|E2|E2]; try discriminate; subst.
  - rewrite N.compare_refl. eapply IH; eassumption.
  - now apply N.compare_lt_iff in E2 as ->.
  - now apply N.compare_lt_iff in E1 as ->.
  - assert (E : (x < z)%N) by lia. now apply N.compare_lt_iff in E as ->.
Qed.

Lemma str_eqb_true (a b : pystr) : str_eqb a b = true <-> a = b.
Proof.
  unfold str_eqb. destruct (pystr_eq_dec a b); split; congruence.
Qed.

Lemma str_eqb_refl (a : pystr) : str_eqb a a = true.
Proof. now apply str_eqb_true. Qed.

Lemma str_eqb_sym (a b : pystr) : str_eqb a b = str_eqb b a.
Proof.
  unfold str_eqb. destruct (pystr_eq_dec a b), (pystr_eq_dec b a); congruence.
Qed.

(** The key order spelled out. *)
Lemma key_leb_spec (a b : Chunk) :
  key_leb a b = true
  <-> str_compare (document_id a) (document_id b) = Lt
      \/ (document_id a = document_id b /\ chunk_index a <= chunk_index b).
Proof.
  unfold key_leb.
  destruct (str_compare (document_id a) (document_id b)) eqn:E.
  - apply str_compare_eq in E. rewrite Z.leb_le.
    split; [intros H; right; now split | intros [H|[_ H]]; [discriminate | exact H]].
  - split; [now left | reflexivity].
  - split; [discriminate|]. intros [H|[H _]]; [discriminate|].
    rewrite H, str_compare_refl in E. discriminate.
Qed.

Lemma key_leb_total (a b : Chunk) : key_leb a b = false -> key_leb b a = true.
Proof.
  unfold key_leb. rewrite (str_compare_antisym (document_id a) (document_id b)).
  destruct (str_compare (document_id a) (document_id b)); simpl;
    try discriminate; try reflexivity.
  rewrite Z.leb_gt, Z.leb_le. lia.
Qed.

Lemma key_leb_trans (a b c : Chunk) :
  key_leb a b = true -> key_leb b c = true -> key_leb a c = true.
Proof.
  rewrite !key_leb_spec. intros [H1|[H1 H1']] [H2|[H2 H2']].
  - left. eapply str_compare_lt_trans; eassumption.
  - left. now rewrite <- H2.
  - left. now rewrite H1.
  - right. split; [congruence | lia].
Qed.

(** ** The stable sort *)

Lemma insert_by_key_perm (x : Chunk) (l : list Chunk) :
  Permutation (x :: l) (insert_by_key x l).
Proof.
  induction l as [|y r IH]; simpl; [reflexivity|].
  destruct (key_leb x y); [reflexivity|].
  rewrite perm_swap. now apply perm_skip.
Qed.

Lemma sorted_by_key_perm (l : list Chunk) : Permutation l (sorted_by_key l).
Proof.
  induction l as [|x l IH]; simpl; [reflexivity|].
  rewrite <- insert_by_key_perm. now apply perm_skip.
Qed.

Lemma insert_by_key_sorted (x : Chunk) (l : list Chunk) :
  StronglySorted (fun a b => key_leb a b = true) l ->
  StronglySorted (fun a b => key_leb a b = true) (insert_by_key x l).
Proof.
  induction l as [|y r IH]; intros H; simpl.
  - constructor; constructor.
  - inversion H as [|? ? Hr Hy]; subst.
    destruct (key_leb x y) eqn:E.
    + constructor; [exact H|]. constructor; [exact E|].
      eapply Forall_impl; [|exact Hy]. intros z Hz.
      eapply key_leb_trans; eassumption.
    + constructor; [now apply IH|].
      apply (Permutation_Forall (insert_by_key_perm x r)).
      constructor; [now apply key_leb_total | exact Hy].
Qed.

Lemma sorted_by_key_sorted (l : list Chunk) :
  StronglySorted (fun a b => key_leb a b = true) (sorted_by_key l).
Proof.
  induction l as [|x l IH]; simpl; [constructor|].
  now apply insert_by_key_sorted.
Qed.

Lemma has_key_leb (doc : pystr) (idx : Z) (x y : Chunk) :
  has_key doc idx x = true -> has_key doc idx y = true -> key_leb x y = true.
Proof.
  unfold has_key. rewrite !andb_true_iff, !str_eqb_true, !Z.eqb_eq.
  intros [H1 H2] [H3 H4]. apply key_leb_spec. right. split; [congruence | lia].
Qed.

Lemma insert_by_key_filter (doc : pystr) (idx : Z) (x : Chunk) (l : list Chunk) :
  filter (has_key doc idx) (insert_by_key x l)
  = filter (has_key doc idx) (x :: l).
Proof.
  induction l as [|y r IH]; simpl; [reflexivity|].
  destruct (key_leb x y) eqn:E; [reflexivity|].
  simpl in *. rewrite IH.
  destruct (has_key doc idx x) eqn:Ex, (has_key doc idx y) eqn:Ey; try reflexivity.
  rewrite (has_key_leb doc idx x y Ex Ey) in E. discriminate.
Qed.

(** Chunks with the same key keep the order they had in the input. *)
Lemma sorted_by_key_stable (doc : pystr) (idx : Z) (l : list Chunk) :
  filter (has_key doc idx) (sorted_by_key l) = filter (has_key doc idx) l.
Proof.
  induction l as [|x l IH]; simpl; [reflexivity|].
  rewrite insert_by_key_filter. simpl. now rewrite IH.
Qed.

(** ** Context assembly *)

Lemma group_by_document_uniform (l : list Chunk) :
  Forall (fun g => g <> [] /\ Forall (fun c => document_id c = group_document g) g)
         (group_by_document l).
Proof.
  induction l as [|c r IH]; simpl; [constructor|].
  destruct (group_by_document r) as [|[|c' g] gs].
  - repeat constructor. discriminate.
  - repeat constructor. discriminate.
  - inversion IH as [|? ? [_ Hg] Hgs]; subst.
    destruct (str_eqb (document_id c) (document_id c')) eqn:E.
    + apply str_eqb_true in E. constructor; [|exact Hgs].
      split; [discriminate|]. constructor; [reflexivity|].
      simpl in *. eapply Forall_impl; [|exact Hg]. intros z Hz. congruence.
    + constructor; [|exact IH]. split; [discriminate|]. now repeat constructor.
Qed.

Lemma group_by_document_concat (l : list Chunk) : concat (group_by_document l) = l.
Proof.
  induction l as [|c r IH]; simpl; [reflexivity|].
  pose proof (group_by_document_uniform r) as Hu.
  destruct (group_by_document r) as [|[|c' g] gs]; simpl in *.
  - now rewrite <- IH.
  - inversion Hu as [|? ? [Hne _] _]. congruence.
  - destruct (str_eqb (document_id c) (document_id c')); simpl; now rewrite IH.
Qed.

(** The document of a group is the document of one of the chunks. *)
Lemma group_document_in (l : list Chunk) (g : list Chunk) :
  In g (group_by_document l) -> In (group_document g) (map document_id l).
Proof.
  intros Hin.
  pose proof (group_by_document_uniform l) as Hu.
  rewrite Forall_forall in Hu. destruct (Hu g Hin) as [Hne _].
  destruct g as [|c g]; [congruence|]. simpl.
  apply in_map. rewrite <- (group_by_document_concat l).
  apply in_concat. exists (c :: g). split; [exact Hin | now left].
Qed.

Lemma group_documents_increase (l : list Chunk) :
  StronglySorted (fun a b => key_leb a b = true) l ->
  StronglySorted (fun a b => str_compare a b = Lt)
                 (map group_document (group_by_document l)).
Proof.
  induction l as [|c r IH]; intros H; simpl; [constructor|].
  inversion H as [|? ? Hr Hc]; subst. specialize (IH Hr).
  pose proof (group_document_in r) as Hin.
  destruct (group_by_document r) as [|[|c' g] gs] eqn:Eg.
  - simpl. repeat constructor.
  - simpl. repeat constructor.
  - destruct (str_eqb (document_id c) (document_id c')) eqn:E.
    + apply str_eqb_true in E. simpl in *. now rewrite E.
    + simpl in *. constructor; [exact IH|].
      assert (Hlt : str_compare (document_id c) (document_id c') = Lt).
      { assert (Hc' : In (document_id c') (map document_id r))
          by (apply (Hin (c' :: g)); now left).
        apply in_map_iff in Hc' as (x & Hx & Hxr).
        rewrite Forall_forall in Hc. specialize (Hc x Hxr).
        apply key_leb_spec in Hc. rewrite Hx in Hc.
        destruct Hc as [Hc|[Hc _]]; [exact Hc|].
        rewrite Hc, str_eqb_refl in E. discriminate. }
      constructor; [exact Hlt|].
      inversion IH as [|? ? _ Hgs]; subst.
      eapply Forall_impl; [|exact Hgs]. intros z Hz.
      eapply str_compare_lt_trans; eassumption.
Qed.

Lemma strictly_increasing_NoDup (l : list pystr) :
  StronglySorted (fun a b => str_compare a b = Lt) l -> NoDup l.
Proof.
  induction 1 as [|x l Hl IH Hx]; constructor; [|exact IH].
  intros Hin. rewrite Forall_forall in Hx. specialize (Hx x Hin).
  rewrite str_compare_refl in Hx. discriminate.
Qed.

(** What the loop has appended when it is entered with [current_doc]. *)
Lemma context_parts_groups (l : list Chunk) :
  forall current_doc,
    concat (context_parts current_doc l)
    = match group_by_document l with
      | [] => []
      | g :: gs =>
          match current_doc with
          | None => source_header
          | Some doc =>
              if str_eqb (group_document g) doc then []
              else source_marker ++ source_header
          end ++ group_body g ++ later_groups gs
      end.
Proof.
  induction l as [|c r IH]; intros cur; [reflexivity|].
  cbn [context_parts group_by_document].
  assert (Hnext : (if new_document cur c then Some (document_id c) else cur)
                  = Some (document_id c)).
  { unfold new_document. destruct cur as [doc|]; [|reflexivity].
    destruct (str_eqb (document_id c) doc) eqn:E; simpl; [|reflexivity].
    apply str_eqb_true in E. now rewrite E. }
  rewrite Hnext, !concat_app, IH.
  match goal with
  | |- concat ?p ++ _ = _ =>
      assert (Hpre :
        concat p
        = match cur with
          | None => source_header
          | Some doc =>
              if str_eqb (document_id c) doc then []
              else source_marker ++ source_header
          end)
  end.
  { unfold new_document. destruct cur as [doc|]; simpl.
    - destruct (str_eqb (document_id c) doc); simpl; [reflexivity|].
      now rewrite ?app_nil_r.
    - now rewrite ?app_nil_r. }
  rewrite Hpre.
  pose proof (group_by_document_uniform r) as Hu.
  destruct (group_by_document r) as [|[|c' g] gs].
  - unfold group_body, later_groups. simpl. now rewrite ?app_nil_r.
  - inversion Hu as [|? ? [Hne _] _]. congruence.
  - rewrite (str_eqb_sym (group_document (c' :: g))). simpl group_document at 1.
    destruct (str_eqb (document_id c) (document_id c')) eqn:E.
    + simpl group_document. unfold group_body. simpl.
      now rewrite <- !app_assoc.
    + simpl group_document. unfold group_body, later_groups, render_group. simpl.
      now rewrite <- !app_assoc.
Qed.

Lemma construct_context_render (chunks : list Chunk) :
  construct_context chunks
  = strip (render_groups (group_by_document (sorted_by_key chunks))).
Proof.
  destruct chunks as [|c r]; [reflexivity|].
  unfold construct_context. rewrite context_parts_groups.
  destruct (group_by_document (sorted_by_key (c :: r))) as [|g gs]; [reflexivity|].
  unfold render_groups, render_group, group_body, later_groups.
  now rewrite <- !app_assoc.
Qed.

(** C7: the assembler works on the chunks stably sorted by
    [(document_id, chunk_index)] ascending; cutting the sorted list where the
    document changes gives one group per document (so each document's chunks
    are contiguous), and the context is the groups' blocks with exactly one
    marker between consecutive blocks and none before the first, stripped;
    no chunks give the empty string. *)
Theorem construct_context_layout (chunks : list Chunk) :
  let ordered := sorted_by_key chunks in
  let groups := group_by_document ordered in
  Permutation chunks ordered
  /\ StronglySorted (fun a b => key_leb a b = true) ordered
  /\ (forall doc idx,
        filter (has_key doc idx) ordered = filter (has_key doc idx) chunks)
  /\ concat groups = ordered
  /\ Forall (fun g => g <> [] /\ Forall (fun c => document_id c = group_document g) g)
            groups
  /\ NoDup (map group_document groups)
  /\ construct_context chunks = strip (render_groups groups)
  /\ construct_context [] = [].
Proof.
  intros ordered groups.
  split; [apply sorted_by_key_perm|].
  split; [apply sorted_by_key_sorted|].
  split; [intros doc idx; apply sorted_by_key_stable|].
  split; [apply group_by_document_concat|].
  split; [apply group_by_document_uniform|].
  split; [apply strictly_increasing_NoDup, group_documents_increase,
          sorted_by_key_sorted|].
  split; [apply construct_context_render | reflexivity].
Qed.

(** ** The response of the question-answering pipeline *)

Lemma first_appearance_In (l : list pystr) (x : pystr) :
  In x (first_appearance l) <-> In x l.
Proof.
  induction l as [|y l IH]; simpl; [tauto|].
  rewrite filter_In, IH, negb_true_iff.
  destruct (pystr_eq_dec x y) as [E|E].
  - subst. tauto.
  - assert (str_eqb x y = false).
    { destruct (str_eqb x y) eqn:Eb; [|reflexivity].
      apply str_eqb_true in Eb. contradiction. }
    split; [tauto|]. intros [H1|H1]; [now left | right; tauto].
Qed.

Lemma first_appearance_NoDup (l : list pystr) : NoDup (first_appearance l).
Proof.
  induction l as [|y l IH]; simpl; constructor.
  - rewrite filter_In, str_eqb_refl. simpl. intros [_ H]. discriminate.
  - now apply NoDup_filter.
Qed.

Lemma first_appearance_set_iter : set_iter_ok first_appearance.
Proof.
  intros l. split; [apply first_appearance_NoDup|].
  intros x. apply first_appearance_In.
Qed.

Section ResponseProperties.
Context {L : FaissLib}.

Lemma get_chunk_contents_nil (e : Env L) : get_chunk_contents e [] = [].
Proof. unfold get_chunk_contents. now destruct (db_rows e). Qed.

(** The three shapes of a result: the failure, the two canned successes
    without chunk records, and the answer built from the chunk records. *)
Lemma answer_question_shape (e : Env L) (q : pystr) :
  match answer_question e q with
  | Failure _ => retrieved_chunks e q = []
  | Success _ srcs n _ =>
      n = Z.of_nat (length srcs)
      /\ ((retrieved_chunks e q = [] /\ srcs = [])
          \/ (retrieved_chunks e q <> []
              /\ srcs = set_iter e (map document_id (retrieved_chunks e q))))
  end.
Proof.
  unfold answer_question, retrieved_chunks.
  destruct (embed_question L e q) as [msg|v]; [reflexivity|].
  destruct (retrieve_relevant_chunks e v None) as [|id ids].
  - rewrite get_chunk_contents_nil. split; [reflexivity | now left].
  - destruct (get_chunk_contents e (id :: ids)) as [|c cs].
    + split; [reflexivity | now left].
    + split; [reflexivity | right; split; [discriminate | reflexivity]].
Qed.

(** C8, amended: the [sources] of a response are the document ids of the
    retrieved chunk records, each exactly once; they are the ids listed by
    first appearance in the [(document_id, chunk_index)] order up to a
    permutation, the order itself being that of the set's iteration. *)
Theorem sources_are_distinct_documents (e : Env L) (q : pystr) :
  set_iter_ok (set_iter e) ->
  let r := answer_question e q in
  let chunks := retrieved_chunks e q in
  NoDup (sources r)
  /\ (forall doc, In doc (sources r) <-> In doc (map document_id chunks))
  /\ Permutation (sources r)
       (first_appearance (map document_id (sorted_by_key chunks))).
Proof.
  intros Hset r chunks.
  assert (H : NoDup (sources r)
              /\ forall doc, In doc (sources r) <-> In doc (map document_id chunks)).
  { pose proof (answer_question_shape e q) as Hs. fold r chunks in Hs.
    destruct r as [a srcs n used|msg]; simpl.
    - destruct Hs as [_ [[Hc ->]|[_ ->]]].
      + rewrite Hc. split; [constructor | tauto].
      + destruct (Hset (map document_id chunks)) as [Hn Hi]. now split.
    - rewrite Hs. split; [constructor | tauto]. }
  destruct H as [Hn Hi]. split; [exact Hn|]. split; [exact Hi|].
  apply NoDup_Permutation; [exact Hn | apply first_appearance_NoDup|].
  intros doc. rewrite Hi, first_appearance_In.
  split; apply Permutation_in, Permutation_map;
    [|symmetry]; apply sorted_by_key_perm.
Qed.

(** C10: in every successful response [num_sources] is the length of
    [sources], and [sources] has no repetition, so it is the number of
    distinct document ids; when no chunk record was retrieved both are
    zero. *)
Theorem num_sources_counts_sources (e : Env L) (q : pystr) :
  set_iter_ok (set_iter e) ->
  let r := answer_question e q in
  success r = true ->
  num_sources r = Z.of_nat (length (sources r))
  /\ NoDup (sources r)
  /\ (retrieved_chunks e q = [] -> sources r = [] /\ num_sources r = 0).
Proof.
  intros Hset r Hok.
  pose proof (answer_question_shape e q) as Hs. fold r in Hs.
  destruct r as [a srcs n used|msg]; [|discriminate]. simpl.
  destruct Hs as [Hn [[Hc ->]|[Hc ->]]].
  - subst n. repeat split. constructor.
  - split; [exact Hn|]. split; [apply Hset | contradiction].
Qed.

End ResponseProperties.

(** C8, as stated, fails: the nearest chunk belongs to [doc_b] and the next
    to [doc_a]; with a set that iterates in insertion order [sources] is
    [doc_b, doc_a], not the order of first appearance after sorting. *)
Lemma sources_order_counterexample :
  set_iter_ok (set_iter Demo.env)
  /\ retrieved_chunks Demo.env Demo.question <> []
  /\ sources (answer_question Demo.env Demo.question)
     = [lit "doc_b"; lit "doc_a"]
  /\ first_appearance
       (map document_id
            (sorted_by_key (retrieved_chunks Demo.env Demo.question)))
     = [lit "doc_a"; lit "doc_b"].
Proof.
  split; [exact first_appearance_set_iter|].
  split; [vm_compute; discriminate|].
  split; vm_compute; reflexivity.
Qed.

Lemma sources_are_distinct_documents_witness :
  let r := answer_question Demo.env Demo.question in
  let chunks := retrieved_chunks Demo.env Demo.question in
  NoDup (sources r)
  /\ (forall doc, In doc (sources r) <-> In doc (map document_id chunks))
  /\ Permutation (sources r)
       (first_appearance (map document_id (sorted_by_key chunks))).
Proof.
  apply (@sources_are_distinct_documents Ref.lib Demo.env Demo.question).
  exact first_appearance_set_iter.
Defined.

Lemma num_sources_counts_sources_witness :
  let r := answer_question Demo.env Demo.question in
  num_sources r = Z.of_nat (length (sources r))
  /\ NoDup (sources r)
  /\ (retrieved_chunks Demo.env Demo.question = [] ->
      sources r = [] /\ num_sources r = 0).
Proof.
  apply (@num_sources_counts_sources Ref.lib Demo.env Demo.question).
  - exact first_appearance_set_iter.
  - vm_compute. reflexivity.
Defined.

(* ================================================================== *)
(** * Part III. Further properties of the code                         *)
(* ================================================================== *)

Import Sentences Shape.

(** ** Stripping *)

Lemma infix_refl {A} (s : list A) : infix s s.
Proof. exists [], []. now rewrite app_nil_r. Qed.

Lemma infix_trans {A} (a b c : list A) : infix a b -> infix b c -> infix a c.
Proof.
  intros (p1 & q1 & ->) (p2 & q2 & ->).
  exists (p2 ++ p1), (q1 ++ q2). now rewrite <- !app_assoc.
Qed.

Lemma infix_length {A} (a s : list A) : infix a s -> (length a <= length s)%nat.
Proof. intros (p & q & ->). rewrite !length_app. lia. Qed.

Lemma rstrip_prefix (s : pystr) : exists q, s = rstrip s ++ q.
Proof.
  unfold rstrip. destruct (lstrip_suffix (rev s)) as (p & Hp & _).
  exists (rev p). rewrite <- rev_app_distr, <- Hp. now rewrite rev_involutive.
Qed.

Lemma strip_infix (s : pystr) : infix (strip s) s.
Proof.
  unfold strip. destruct (lstrip_suffix s) as (p & Hp & _).
  destruct (rstrip_prefix (lstrip s)) as (q & Hq).
  exists p, q. now rewrite <- Hq.
Qed.

Lemma sub_infix (s : pystr) (lo hi : nat) : infix (sub s lo hi) s.
Proof.
  unfold sub. exists (firstn lo s), (skipn (hi - lo) (skipn lo s)).
  now rewrite firstn_skipn, firstn_skipn.
Qed.

Lemma slice_infix (s : pystr) (a b : Z) : infix (slice s a b) s.
Proof. apply sub_infix. Qed.

Lemma lstrip_fixed (s : pystr) :
  match s with [] => True | c :: _ => is_space c = false end -> lstrip s = s.
Proof. destruct s as [|c r]; simpl; [reflexivity | now intros ->]. Qed.

Lemma lstrip_head (s : pystr) :
  match lstrip s with [] => True | c :: _ => is_space c = false end.
Proof.
  induction s as [|c r IH]; simpl; [exact I|].
  destruct (is_space c) eqn:E; [exact IH | exact E].
Qed.

Lemma lstrip_idempotent (s : pystr) : lstrip (lstrip s) = lstrip s.
Proof. apply lstrip_fixed, lstrip_head. Qed.

Lemma rstrip_idempotent (s : pystr) : rstrip (rstrip s) = rstrip s.
Proof. unfold rstrip. now rewrite rev_involutive, lstrip_idempotent. Qed.

(** Stripping the right end does not expose whitespace on the left. *)
Lemma lstrip_rstrip_lstrip (s : pystr) :
  lstrip (rstrip (lstrip s)) = rstrip (lstrip s).
Proof.
  apply lstrip_fixed.
  pose proof (lstrip_head s) as Hh.
  destruct (rstrip_prefix (lstrip s)) as (q & Hq).
  destruct (rstrip (lstrip s)) as [|c r]; [exact I|].
  rewrite Hq in Hh. exact Hh.
Qed.

Lemma strip_idempotent (s : pystr) : strip (strip s) = strip s.
Proof.
  unfold strip. now rewrite lstrip_rstrip_lstrip, rstrip_idempotent.
Qed.

(** ** The chunker, whatever its parameters *)

(** Whatever holds of every stripped non-empty slice of the text holds of
    every chunk. *)
Lemma chunk_loop_chunks (P : pystr -> Prop) (text : pystr) (chunk_size overlap : Z) :
  (forall a b, truthy (strip (slice text a b)) = true -> P (strip (slice text a b))) ->
  forall fuel start acc r,
    Forall P acc ->
    chunk_loop fuel text chunk_size overlap start acc = Some r ->
    Forall P r.
Proof.
  intros HP. induction fuel as [|fuel IH]; intros start acc r Hacc H; simpl in H.
  - discriminate.
  - destruct (start <? len text).
    + apply IH in H; [exact H|].
      destruct (truthy (strip (slice text start (window_end text chunk_size start))))
        eqn:E; [|exact Hacc].
      apply Forall_app. split; [exact Hacc|]. constructor; [|constructor].
      now apply HP.
    + now injection H as <-.
Qed.

Lemma chunk_text_chunks (P : pystr -> Prop) (text : pystr) :
  (forall a b, truthy (strip (slice text a b)) = true -> P (strip (slice text a b))) ->
  forall fuel chunk_size overlap r,
    chunk_text fuel text chunk_size overlap = Some r -> Forall P r.
Proof.
  intros HP fuel chunk_size overlap r H. unfold chunk_text in H.
  destruct (negb (truthy text) || (len text =? 0)).
  - injection H as <-. constructor.
  - eapply chunk_loop_chunks; [exact HP | constructor | exact H].
Qed.

(** X1: every chunk [chunk_text] returns is non-empty and has no whitespace
    at either end, for every text and every pair of parameters. *)
Theorem chunk_text_chunks_stripped (fuel : nat) (text : pystr)
    (chunk_size overlap : option Z) (chunks : list pystr) :
  chunk_text fuel text chunk_size overlap = Some chunks ->
  Forall (fun c => c <> [] /\ strip c = c) chunks.
Proof.
  apply chunk_text_chunks. intros a b Ht. split.
  - intros E. rewrite E in Ht. discriminate.
  - apply strip_idempotent.
Qed.

Lemma chunk_text_chunks_stripped_witness :
  Forall (fun c => c <> [] /\ strip c = c)
         [lit "One."; lit ". Two wo"; lit "ords."; lit ". Three."].
Proof.
  apply (chunk_text_chunks_stripped 23 (lit "One. Two words. Three.") (Some 8) (Some 1)).
  vm_compute. reflexivity.
Defined.

(** X2: every chunk [chunk_text] returns is a contiguous piece of the text:
    the chunker neither invents nor reorders characters. *)
Theorem chunk_text_chunks_in_text (fuel : nat) (text : pystr)
    (chunk_size overlap : option Z) (chunks : list pystr) :
  chunk_text fuel text chunk_size overlap = Some chunks ->
  Forall (fun c => infix c text) chunks.
Proof.
  apply chunk_text_chunks. intros a b _.
  eapply infix_trans; [apply strip_infix | apply slice_infix].
Qed.

Lemma chunk_text_chunks_in_text_witness :
  Forall (fun c => infix c (lit "One. Two words. Three."))
         [lit "One."; lit ". Two wo"; lit "ords."; lit ". Three."].
Proof.
  apply (chunk_text_chunks_in_text 23 (lit "One. Two words. Three.") (Some 8) (Some 1)).
  vm_compute. reflexivity.
Defined.

(** ** The chunker with advancing parameters *)

Lemma chunk_loop_more_fuel (text : pystr) (chunk_size overlap : Z) :
  forall fuel start acc r,
    chunk_loop fuel text chunk_size overlap start acc = Some r ->
    chunk_loop (S fuel) text chunk_size overlap start acc = Some r.
Proof.
  induction fuel as [|fuel IH]; intros start acc r H; [discriminate|].
  cbn [chunk_loop] in *. destruct (start <? len text); [|exact H].
  now apply IH.
Qed.

Lemma chunk_loop_fuel_le (text : pystr) (chunk_size overlap : Z) :
  forall fuel fuel' start acc r,
    (fuel <= fuel')%nat ->
    chunk_loop fuel text chunk_size overlap start acc = Some r ->
    chunk_loop fuel' text chunk_size overlap start acc = Some r.
Proof.
  intros fuel fuel' start acc r Hle H.
  induction Hle as [|fuel' _ IH]; [exact H | now apply chunk_loop_more_fuel].
Qed.

Lemma strip_len (s : pystr) : len (strip s) <= len s.
Proof. unfold len. pose proof (infix_length _ _ (strip_infix s)). lia. Qed.

(** With advancing parameters and the cursor inside the text or past it,
    the loop returns within [len text - start + 1] tests, adding at most
    one chunk per position left, none longer than the window. *)
Lemma chunk_loop_advancing (text : pystr) (chunk_size overlap : Z) :
  advancing chunk_size overlap ->
  forall fuel start acc,
    0 <= start -> Z.max 0 (len text - start) < Z.of_nat fuel ->
    exists new,
      chunk_loop fuel text chunk_size overlap start acc = Some (acc ++ new)
      /\ Z.of_nat (length new) <= Z.max 0 (len text - start)
      /\ Forall (fun c => len c <= chunk_size) new.
Proof.
  intros Hadv. pose proof Hadv as [Hov _].
  induction fuel as [|fuel IH]; intros start acc Hs Hfuel.
  - lia.
  - destruct (Z.lt_ge_cases start (len text)) as [Hin|Hout].
    + rewrite chunk_loop_step by exact Hin.
      set (e := window_end text chunk_size start).
      assert (He : start < e <= start + chunk_size
                   /\ 0 <= next_start text overlap e
                   /\ start < next_start text overlap e).
      { unfold next_start, e.
        destruct (Z.lt_ge_cases (start + chunk_size) (len text)) as [H1|H1].
        - pose proof (window_end_bounds text chunk_size overlap start Hadv Hs H1).
          destruct (Z.ltb_spec (window_end text chunk_size start) (len text)); lia.
        - rewrite window_end_last by lia.
          destruct (Z.ltb_spec (start + chunk_size) (len text)); lia. }
      destruct He as (He & Hn0 & Hn).
      assert (Hc : len (strip (slice text start e)) <= chunk_size).
      { pose proof (strip_len (slice text start e)) as H1.
        rewrite slice_inside in H1 by lia.
        assert (H2 : len (sub text (Z.to_nat start) (Z.to_nat (Z.min e (len text))))
                     <= chunk_size).
        { unfold len in *. rewrite sub_length by lia. lia. }
        rewrite slice_inside by lia. lia. }
      destruct (truthy (strip (slice text start e))).
      * destruct (IH (next_start text overlap e)
                     (acc ++ [strip (slice text start e)]) Hn0 ltac:(lia))
          as (new & Hrun & Hcount & Hlen).
        exists (strip (slice text start e) :: new).
        rewrite Hrun, <- app_assoc. split; [reflexivity|].
        split; [simpl length; lia | now constructor].
      * destruct (IH (next_start text overlap e) acc Hn0 ltac:(lia))
          as (new & Hrun & Hcount & Hlen).
        exists new. split; [exact Hrun|]. split; [lia | exact Hlen].
    + rewrite chunk_loop_exit by lia. exists []. rewrite app_nil_r.
      split; [reflexivity|]. split; [simpl; lia | constructor].
Qed.

(** X3: with parameters under which the cursor advances (the configured
    500/50 among them) [chunk_text] returns on every text, within one test
    of the loop condition per character plus one, with the same chunks for
    every larger fuel, and at most one chunk per character. *)
Theorem chunk_text_returns_when_advancing (text : pystr) (chunk_size overlap : Z)
    (fuel : nat) :
  advancing chunk_size overlap ->
  (length text < fuel)%nat ->
  exists chunks,
    chunk_text (S (length text)) text (Some chunk_size) (Some overlap) = Some chunks
    /\ chunk_text fuel text (Some chunk_size) (Some overlap) = Some chunks
    /\ (length chunks <= length text)%nat.
Proof.
  intros Hadv Hfuel. unfold chunk_text.
  destruct (negb (truthy text) || (len text =? 0)).
  - exists []. repeat split. simpl. lia.
  - destruct (chunk_loop_advancing text chunk_size overlap Hadv
                (S (length text)) 0 [] ltac:(lia) ltac:(unfold len; lia))
      as (new & Hrun & Hcount & _).
    exists new. change ([] ++ new) with new in Hrun.
    split; [exact Hrun|]. split.
    + eapply chunk_loop_fuel_le; [|exact Hrun]. lia.
    + unfold len in Hcount. lia.
Qed.

Lemma chunk_text_returns_when_advancing_witness :
  exists chunks,
    chunk_text (S (length Indexing.Demo.text)) Indexing.Demo.text
               (Some Settings.CHUNK_SIZE) (Some Settings.CHUNK_OVERLAP) = Some chunks
    /\ chunk_text 1000 Indexing.Demo.text
                  (Some Settings.CHUNK_SIZE) (Some Settings.CHUNK_OVERLAP) = Some chunks
    /\ (length chunks <= length Indexing.Demo.text)%nat.
Proof.
  apply chunk_text_returns_when_advancing.
  - unfold advancing, Settings.CHUNK_SIZE, Settings.CHUNK_OVERLAP. lia.
  - vm_compute. lia.
Defined.

(** X4: with advancing parameters no chunk is longer than [chunk_size]. *)
Theorem chunk_text_chunks_within_size (text : pystr) (chunk_size overlap : Z)
    (fuel : nat) (chunks : list pystr) :
  advancing chunk_size overlap ->
  chunk_text fuel text (Some chunk_size) (Some overlap) = Some chunks ->
  Forall (fun c => len c <= chunk_size) chunks.
Proof.
  intros Hadv H. unfold chunk_text in H.
  destruct (negb (truthy text) || (len text =? 0)).
  - injection H as <-. constructor.
  - destruct (chunk_loop_advancing text chunk_size overlap Hadv
                (S (length text)) 0 [] ltac:(lia) ltac:(unfold len; lia))
      as (new & Hrun & _ & Hlen).
    change ([] ++ new) with new in Hrun.
    destruct (Nat.le_ge_cases fuel (S (length text))) as [Hle|Hle].
    + apply (chunk_loop_fuel_le _ _ _ _ _ _ _ _ Hle) in H. congruence.
    + apply (chunk_loop_fuel_le _ _ _ _ _ _ _ _ Hle) in Hrun. congruence.
Qed.

Lemma chunk_text_chunks_within_size_witness :
  Forall (fun c => len c <= 8)
         [lit "One."; lit ". Two wo"; lit "ords."; lit ". Three."].
Proof.
  apply (chunk_text_chunks_within_size (lit "One. Two words. Three.") 8 1 23).
  - unfold advancing. lia.
  - vm_compute. reflexivity.
Defined.

(** ** The sentence-based splitter *)

Lemma sentence_loop_step (fuel : nat) (sentences : list pystr) (m o i : Z)
    (chunks : list pystr) :
  i < Z.of_nat (length sentences) ->
  sentence_loop (S fuel) sentences m o i chunks
  = sentence_loop fuel sentences m o (i + (m - o))
      (chunks ++ [join [SP] (slice_list sentences i (i + m))]).
Proof.
  intros H. cbn [sentence_loop].
  destruct (Z.ltb_spec i (Z.of_nat (length sentences))); [reflexivity | lia].
Qed.

Lemma sentence_loop_exit (fuel : nat) (sentences : list pystr) (m o i : Z)
    (chunks : list pystr) :
  Z.of_nat (length sentences) <= i ->
  sentence_loop (S fuel) sentences m o i chunks = Some chunks.
Proof.
  intros H. cbn [sentence_loop].
  destruct (Z.ltb_spec i (Z.of_nat (length sentences))); [lia | reflexivity].
Qed.

Lemma passes_step (n step : Z) :
  0 < step -> 0 < n ->
  passes n step = 1 + (if n - step <=? 0 then 0 else passes (n - step) step).
Proof.
  intros Hs Hn. unfold passes.
  replace (n + step - 1) with (n - 1 + 1 * step) by lia.
  rewrite Z.div_add by lia.
  destruct (Z.leb_spec (n - step) 0) as [H|H].
  - rewrite Z.div_small by lia. lia.
  - replace (n - step + step - 1) with (n - 1) by lia. lia.
Qed.

(** With a positive step the loop makes [passes] passes over what is left. *)
Lemma sentence_loop_count (sentences : list pystr) (m o : Z) :
  0 < m - o ->
  forall fuel i acc,
    0 <= i -> Z.max 0 (Z.of_nat (length sentences) - i) < Z.of_nat fuel ->
    exists new,
      sentence_loop fuel sentences m o i acc = Some (acc ++ new)
      /\ Z.of_nat (length new)
         = (if Z.of_nat (length sentences) - i <=? 0 then 0
            else passes (Z.of_nat (length sentences) - i) (m - o)).
Proof.
  intros Hstep. induction fuel as [|fuel IH]; intros i acc Hi Hfuel; [lia|].
  destruct (Z.lt_ge_cases i (Z.of_nat (length sentences))) as [Hin|Hout].
  - rewrite sentence_loop_step by exact Hin.
    destruct (IH (i + (m - o)) (acc ++ [join [SP] (slice_list sentences i (i + m))])
                ltac:(lia) ltac:(lia)) as (new & Hrun & Hcount).
    exists (join [SP] (slice_list sentences i (i + m)) :: new).
    rewrite Hrun, <- app_assoc. split; [reflexivity|].
    destruct (Z.leb_spec (Z.of_nat (length sentences) - i) 0); [lia|].
    rewrite (passes_step (Z.of_nat (length sentences) - i)) by lia.
    replace (Z.of_nat (length sentences) - i - (m - o))
      with (Z.of_nat (length sentences) - (i + (m - o))) by lia.
    simpl length. lia.
  - rewrite sentence_loop_exit by lia. exists []. rewrite app_nil_r.
    split; [reflexivity|].
    destruct (Z.leb_spec (Z.of_nat (length sentences) - i) 0); [reflexivity | lia].
Qed.

(** X5: when [max_sentences] exceeds [overlap_sentences],
    [chunk_text_by_sentences] returns, and the number of its chunks is the
    number of sentences divided by the step [max_sentences -
    overlap_sentences], rounded up; a text without a sentence gives no
    chunk. *)
Theorem chunk_text_by_sentences_count (text : pystr)
    (max_sentences overlap_sentences : Z) :
  overlap_sentences < max_sentences ->
  exists chunks,
    chunk_text_by_sentences (S (length (sentences_of text))) text
      (Some max_sentences) (Some overlap_sentences) = Some chunks
    /\ Z.of_nat (length chunks)
       = passes (Z.of_nat (length (sentences_of text)))
                (max_sentences - overlap_sentences).
Proof.
  intros Hlt. unfold chunk_text_by_sentences.
  destruct (sentences_of text) as [|s ss] eqn:E.
  - exists []. split; [reflexivity|]. unfold passes. simpl.
    rewrite Z.div_small by lia. reflexivity.
  - destruct (sentence_loop_count (s :: ss) max_sentences overlap_sentences
                ltac:(lia) (S (length (s :: ss))) 0 [] ltac:(lia) ltac:(lia))
      as (new & Hrun & Hcount).
    exists new. change ([] ++ new) with new in Hrun. split; [exact Hrun|].
    rewrite Hcount. rewrite Z.sub_0_r.
    destruct (Z.leb_spec (Z.of_nat (length (s :: ss))) 0) as [H|H]; [|reflexivity].
    simpl length in H. lia.
Qed.

Lemma chunk_text_by_sentences_count_witness :
  exists chunks,
    chunk_text_by_sentences (S (length (sentences_of (lit "A. B. C. D. E. F. G"))))
      (lit "A. B. C. D. E. F. G") (Some 5) (Some 1) = Some chunks
    /\ Z.of_nat (length chunks)
       = passes (Z.of_nat (length (sentences_of (lit "A. B. C. D. E. F. G")))) (5 - 1).
Proof.
  apply chunk_text_by_sentences_count. lia.
Defined.

Lemma sentence_loop_stalls (sentences : list pystr) (m o : Z) :
  m - o <= 0 -> sentences <> [] ->
  forall fuel i acc, i <= 0 -> sentence_loop fuel sentences m o i acc = None.
Proof.
  intros Hstep Hne. induction fuel as [|fuel IH]; intros i acc Hi; [reflexivity|].
  rewrite sentence_loop_step
    by (destruct sentences; [congruence | simpl length; lia]).
  apply IH. lia.
Qed.

(** X6: when [overlap_sentences] is at least [max_sentences] and the text
    has a sentence, the loop of [chunk_text_by_sentences] never ends: the
    position does not move forward, and no fuel gives a result. *)
Theorem chunk_text_by_sentences_stalls (text : pystr)
    (max_sentences overlap_sentences : Z) (fuel : nat) :
  max_sentences <= overlap_sentences ->
  sentences_of text <> [] ->
  chunk_text_by_sentences fuel text (Some max_sentences) (Some overlap_sentences)
  = None.
Proof.
  intros Hle Hne. unfold chunk_text_by_sentences.
  destruct (sentences_of text) as [|s ss] eqn:E; [congruence|].
  apply sentence_loop_stalls; [lia | discriminate | lia].
Qed.

Lemma chunk_text_by_sentences_stalls_witness :
  chunk_text_by_sentences 1000 (lit "A. B. C") (Some 2) (Some 2) = None.
Proof.
  apply chunk_text_by_sentences_stalls.
  - lia.
  - vm_compute. discriminate.
Defined.

(** ** What [clean_text] leaves in its result *)

Lemma collapse_spaces_plain (in_run : bool) (s : pystr) :
  Forall (fun c => is_space c = false \/ c = SP) (collapse_spaces in_run s).
Proof.
  revert in_run. induction s as [|c r IH]; intros in_run; simpl; [constructor|].
  destruct (is_space c) eqn:E.
  - destruct in_run; [apply IH | constructor; [now right | apply IH]].
  - constructor; [now left | apply IH].
Qed.

Lemma strip_controls_clean (s : pystr) :
  Forall (fun c => is_space c = false \/ c = SP) s ->
  Forall (fun c => clean_char c = true) (strip_controls s).
Proof.
  intros H. unfold strip_controls. apply Forall_forall. intros c Hc.
  apply filter_In in Hc as [Hin Hctl]. rewrite Forall_forall in H.
  unfold clean_char. rewrite Hctl. simpl.
  destruct (H c Hin) as [E|E]; [now rewrite E | now subst].
Qed.

Lemma replace_from_Forall (P : N -> Prop) (old new : pystr) (s : pystr) :
  Forall P new -> Forall P s ->
  forall skip, Forall P (replace_from old new skip s).
Proof.
  intros Hnew. induction 1 as [|c r Hc Hr IH]; intros skip; simpl; [constructor|].
  destruct skip as [|k]; [|apply IH].
  destruct (starts_with old (c :: r)).
  - apply Forall_app. split; [exact Hnew | apply IH].
  - constructor; [exact Hc | apply IH].
Qed.

Lemma replace_Forall (P : N -> Prop) (s old new : pystr) :
  Forall P new -> Forall P s -> Forall P (replace s old new).
Proof.
  intros Hnew Hs. unfold replace. destruct old as [|o old'].
  - apply Forall_app. split; [exact Hnew|].
    apply Forall_flat_map. eapply Forall_impl; [|exact Hs].
    intros c Hc. now constructor.
  - now apply replace_from_Forall.
Qed.

Lemma flush_run_Forall (P : N -> Prop) (run : pystr) :
  Forall P run -> Forall P (flush_run run).
Proof.
  intros H. destruct H as [|x run' Hx _]; simpl; [constructor|].
  now repeat constructor.
Qed.

Lemma collapse_punct_Forall (P : N -> Prop) (s : pystr) :
  Forall P s -> forall run, Forall P run -> Forall P (collapse_punct run s).
Proof.
  induction 1 as [|c r Hc Hr IH]; intros run Hrun; simpl.
  - now apply flush_run_Forall.
  - destruct (is_terminal c).
    + apply IH. now constructor.
    + apply Forall_app. split; [now apply flush_run_Forall|].
      constructor; [exact Hc | apply IH; constructor].
Qed.

Lemma infix_Forall {A} (P : A -> Prop) (a s : list A) :
  infix a s -> Forall P s -> Forall P a.
Proof.
  intros (p & q & ->) H. apply Forall_app in H as [_ H].
  now apply Forall_app in H as [H _].
Qed.

(** X7: the result of [clean_text] has no whitespace at either end, no
    character of the control class the function removes, and no whitespace
    character other than the plain space. *)
Theorem clean_text_clean (text : pystr) :
  strip (clean_text text) = clean_text text
  /\ Forall (fun c => clean_char c = true) (clean_text text).
Proof.
  unfold clean_text. destruct (negb (truthy text)).
  - split; [reflexivity | constructor].
  - split; [apply strip_idempotent|].
    eapply infix_Forall; [apply strip_infix|].
    apply collapse_punct_Forall; [|constructor].
    apply replace_Forall; [repeat constructor|].
    apply replace_Forall; [repeat constructor|].
    apply replace_Forall; [repeat constructor|].
    apply strip_controls_clean, collapse_spaces_plain.
Qed.

Lemma doubled_terminal_cons (a b : N) (r : pystr) :
  doubled_terminal (a :: b :: r)
  = is_terminal a && is_terminal b || doubled_terminal (b :: r).
Proof. reflexivity. Qed.

Lemma collapse_punct_single (s : pystr) :
  forall run, doubled_terminal (collapse_punct run s) = false.
Proof.
  induction s as [|c r IH]; intros run; simpl.
  - now destruct run as [|x [|y run']].
  - destruct (is_terminal c) eqn:E; [apply IH|].
    specialize (IH []).
    assert (H : doubled_terminal (c :: collapse_punct [] r) = false).
    { simpl. destruct (collapse_punct [] r); [reflexivity|].
      now rewrite E. }
    destruct run as [|x run']; [exact H|].
    change (doubled_terminal (x :: c :: collapse_punct [] r) = false).
    rewrite doubled_terminal_cons, E, andb_false_r. exact H.
Qed.

Lemma doubled_terminal_app (p s : pystr) :
  doubled_terminal (p ++ s) = false -> doubled_terminal s = false.
Proof.
  induction p as [|a p IH]; simpl; [trivial|].
  destruct (p ++ s) as [|b t] eqn:E.
  - destruct p; [|discriminate]. simpl in E. now subst.
  - intros H. apply orb_false_elim in H as [_ H]. now apply IH.
Qed.

Lemma doubled_terminal_prefix (s q : pystr) :
  doubled_terminal (s ++ q) = false -> doubled_terminal s = false.
Proof.
  induction s as [|a s IH]; simpl; [trivial|].
  destruct s as [|b t]; [trivial|]. simpl app.
  intros H. apply orb_false_elim in H as [H1 H2].
  rewrite H1. simpl. now apply IH.
Qed.

Lemma doubled_terminal_infix (a s : pystr) :
  infix a s -> doubled_terminal s = false -> doubled_terminal a = false.
Proof.
  intros (p & q & ->) H.
  apply doubled_terminal_app in H. now apply doubled_terminal_prefix in H.
Qed.

(** X8: the result of [clean_text] never has two of the marks [.], [!], [?]
    in a row. *)
Theorem clean_text_single_terminals (text : pystr) :
  doubled_terminal (clean_text text) = false.
Proof.
  unfold clean_text. destruct (negb (truthy text)); [reflexivity|].
  eapply doubled_terminal_infix; [apply strip_infix|].
  apply collapse_punct_single.
Qed.

(** ** The vector index, operation by operation *)

Section IndexOperations.
Context {L : FaissLib}.

Lemma rows_checked_after_conversion (dim : Z) (e : list (vec L)) :
  forallb (fun v : vec L => Z.of_nat (length v) =? dim)
          (map (map (astype_float32 L)) e)
  = forallb (fun v : vec L => Z.of_nat (length v) =? dim) e.
Proof.
  induction e as [|v e IH]; simpl; [reflexivity|].
  now rewrite length_map, IH.
Qed.

(** X9: [add_vectors] on a service that holds an index either takes the
    whole batch or nothing: when every row has the dimension of the index
    it returns, the vector count grows by the number of rows, and rows and
    chunk ids are appended; when some row has another dimension it raises
    and the service is unchanged. *)
Theorem add_vectors_all_or_nothing (s : FAISSService L) (ix : IndexFlatL2 L)
    (e : list (vec L)) (c : list pystr) :
  index s = Some ix ->
  let rows_ok := forallb (fun v : vec L => Z.of_nat (length v) =? d ix) e in
  let r := add_vectors s e c in
  (rows_ok = true ->
   fst r = Returned
   /\ get_total_vectors (snd r) = get_total_vectors s + Z.of_nat (length e)
   /\ vectors (snd r) = vectors s ++ map (map (astype_float32 L)) e
   /\ metadata (snd r) = metadata s ++ c)
  /\ (rows_ok = false -> fst r = Raised /\ snd r = s).
Proof.
  intros Hix rows_ok r. unfold r, add_vectors. rewrite Hix. simpl. rewrite Hix.
  unfold index_add. rewrite rows_checked_after_conversion. fold rows_ok.
  destruct rows_ok; simpl.
  - split; [intros _ | discriminate].
    unfold get_total_vectors, vectors, ntotal. simpl. rewrite Hix.
    rewrite length_app, length_map. repeat split. apply Nat2Z.inj_add.
  - split; [discriminate | now intros _].
Qed.

(** X10: [reset_index] returns from every state and leaves no vector and no
    chunk id; every search then gives the empty result, and a service
    constructed afterwards on the same directory is empty as well. *)
Theorem reset_index_empties (w : World L) (dim' : Z) (q : vec L) (k : Z) :
  let r := reset_index w in
  let fresh := svc (init dim' (disk (snd r))) in
  fst r = Returned
  /\ get_total_vectors (svc (snd r)) = 0
  /\ metadata (svc (snd r)) = []
  /\ search (svc (snd r)) q k = Some ([], [])
  /\ get_total_vectors fresh = 0
  /\ metadata fresh = [].
Proof. repeat split. Qed.

(** X11: a service constructed on a directory where the index file or the
    chunk-id file is missing or unreadable starts with an empty index of the
    requested dimension and no chunk id, and leaves the directory as it
    found it. *)
Theorem init_without_both_files (dim : Z) (dk : Disk L) :
  (forall ix m, ~ (index_file dk = Holds ix /\ metadata_file dk = Holds m)) ->
  index (svc (init dim dk)) = Some {| d := dim; xb := [] |}
  /\ metadata (svc (init dim dk)) = []
  /\ disk (init dim dk) = dk.
Proof.
  intros H. unfold init, load_index. simpl.
  destruct (index_file dk) as [| |ix] eqn:Ei;
    destruct (metadata_file dk) as [| |m] eqn:Em; simpl;
    try (repeat split; fail).
  exfalso. apply (H ix m). now split.
Qed.

Lemma getitem_In {A} (l : list A) (i : Z) (x : A) : getitem l i = Some x -> In x l.
Proof.
  unfold getitem.
  destruct ((0 <=? i) && (i <? Z.of_nat (length l)));
    [|destruct ((i <? 0) && (- Z.of_nat (length l) <=? i)); [|discriminate]];
    apply nth_error_In.
Qed.

Lemma gather_from_metadata (meta : list pystr) (indices : list Z) :
  forall ids, gather meta indices = Some ids -> Forall (fun id => In id meta) ids.
Proof.
  induction indices as [|i rest IH]; intros ids H; simpl in H.
  - injection H as <-. constructor.
  - destruct (i <? Z.of_nat (length meta)); [|now apply IH].
    destruct (getitem meta i) as [c|] eqn:Eg; [|discriminate].
    destruct (gather meta rest) as [cs|]; [|discriminate].
    injection H as <-. constructor; [now apply getitem_In in Eg | now apply IH].
Qed.

(** X12: every chunk id [search] returns is one of the chunk ids the
    service holds. *)
Theorem search_ids_from_metadata (s : FAISSService L) (q : vec L) (k : Z)
    (ds : list (scalar L)) (ids : list pystr) :
  search s q k = Some (ds, ids) -> Forall (fun id => In id (metadata s)) ids.
Proof.
  unfold search. intros H.
  destruct (index s) as [ix|]; [|injection H as <- <-; constructor].
  destruct (ntotal ix =? 0); [injection H as <- <-; constructor|].
  destruct (flat_search L (d ix) (xb ix) (map (astype_float32 L) q)
              (Z.min k (ntotal ix))) as [[ds' ls]|]; [|discriminate].
  destruct (gather (metadata s) ls) as [ids'|] eqn:Eg; [|discriminate].
  injection H as <- <-. now apply gather_from_metadata in Eg.
Qed.

Lemma gather_labels (meta : list pystr) (ls : list Z) :
  meta <> [] ->
  Forall (fun l => -1 <= l < Z.of_nat (length meta)) ls ->
  gather meta ls = Some (map (id_at meta) ls).
Proof.
  intros Hne. induction 1 as [|l ls Hl Hls IH]; simpl; [reflexivity|].
  assert (Hn : 0 < Z.of_nat (length meta))
    by (destruct meta; [congruence | simpl length; lia]).
  destruct (Z.ltb_spec l (Z.of_nat (length meta))); [|lia].
  rewrite IH. unfold getitem, id_at.
  destruct (Z.eqb_spec l (-1)) as [->|Hl1].
  - replace ((0 <=? -1) && (-1 <? Z.of_nat (length meta))) with false by reflexivity.
    replace ((-1 <? 0) && (- Z.of_nat (length meta) <=? -1)) with true
      by (symmetry; apply andb_true_iff; split; [reflexivity | apply Z.leb_le; lia]).
    replace (-1 + Z.of_nat (length meta)) with (Z.of_nat (length meta) - 1) by lia.
    rewrite (nth_error_nth' meta []) by lia. reflexivity.
  - replace ((0 <=? l) && (l <? Z.of_nat (length meta))) with true
      by (symmetry; apply andb_true_iff; split; [apply Z.leb_le | apply Z.ltb_lt]; lia).
    rewrite (nth_error_nth' meta []) by lia. reflexivity.
Qed.

(** X13: on a non-empty index with as many chunk ids as vectors, when the
    library answers with labels between -1 and the vector count, [search]
    does not raise and returns one chunk id per label: the id stored at the
    label's position, and for the library's label -1 (no neighbour) the last
    chunk id, which the position test lets through. *)
Theorem search_follows_labels (s : FAISSService L) (ix : IndexFlatL2 L)
    (q : vec L) (k : Z) (ds : list (scalar L)) (ls : list Z) :
  index s = Some ix ->
  ntotal ix <> 0 ->
  length (xb ix) = length (metadata s) ->
  flat_search L (d ix) (xb ix) (map (astype_float32 L) q) (Z.min k (ntotal ix))
  = Some (ds, ls) ->
  Forall (fun l => -1 <= l < ntotal ix) ls ->
  search s q k = Some (ds, map (id_at (metadata s)) ls).
Proof.
  intros Hix Hn Hlen Hs Hls. unfold search. rewrite Hix.
  destruct (Z.eqb_spec (ntotal ix) 0); [contradiction|].
  rewrite Hs. unfold ntotal in *. rewrite Hlen in Hls, Hn.
  rewrite gather_labels; [reflexivity | | exact Hls].
  intros E. rewrite E in Hn. simpl in Hn. lia.
Qed.

End IndexOperations.

Lemma add_vectors_all_or_nothing_witness :
  let s := Demo.indexed in
  let r := add_vectors s [[1; 2]; [3; 4]] [lit "x_chunk_0"; lit "x_chunk_1"] in
  (forallb (fun v : vec Ref.lib => Z.of_nat (length v) =? 2) [[1; 2]; [3; 4]] = true ->
   fst r = Returned
   /\ get_total_vectors (snd r) = get_total_vectors s + Z.of_nat 2
   /\ vectors (snd r)
      = vectors s ++ map (map (astype_float32 Ref.lib)) [[1; 2]; [3; 4]]
   /\ metadata (snd r) = metadata s ++ [lit "x_chunk_0"; lit "x_chunk_1"])
  /\ (forallb (fun v : vec Ref.lib => Z.of_nat (length v) =? 2) [[1; 2]; [3; 4]] = false ->
      fst r = Raised /\ snd r = s).
Proof.
  apply (@add_vectors_all_or_nothing Ref.lib Demo.indexed
           (Build_IndexFlatL2 Ref.lib 2 [[0; 0]; [3; 4]; [9; 9]])).
  vm_compute. reflexivity.
Defined.

Lemma init_without_both_files_witness :
  index (svc (init 384 Ref.empty_disk)) = Some {| d := 384; xb := [] |}
  /\ metadata (svc (init 384 Ref.empty_disk)) = []
  /\ disk (init 384 Ref.empty_disk) = Ref.empty_disk.
Proof.
  apply (@init_without_both_files Ref.lib 384 Ref.empty_disk).
  intros ix m [H _]. discriminate.
Defined.

Lemma search_ids_from_metadata_witness :
  Forall (fun id => In id (metadata Demo.indexed))
         [lit "doc_b_chunk_0"; lit "doc_a_chunk_0"].
Proof.
  apply (@search_ids_from_metadata Ref.lib Demo.indexed [1; 1] 2 [2; 13]).
  vm_compute. reflexivity.
Defined.

Lemma search_follows_labels_witness :
  search Demo.indexed [1; 1] 2
  = Some ([2; 13], map (id_at (metadata Demo.indexed)) [0; 1]).
Proof.
  apply (@search_follows_labels Ref.lib Demo.indexed
           (Build_IndexFlatL2 Ref.lib 2 [[0; 0]; [3; 4]; [9; 9]]) [1; 1] 2 [2; 13] [0; 1]).
  - vm_compute. reflexivity.
  - vm_compute. discriminate.
  - vm_compute. reflexivity.
  - vm_compute. reflexivity.
  - repeat constructor; vm_compute; discriminate.
Defined.

(** ** The question-answering agent and its endpoint *)

Lemma sorted_permutation_unique (l1 : list Chunk) :
  forall l2,
    StronglySorted (fun a b => key_leb a b = true) l1 ->
    StronglySorted (fun a b => key_leb a b = true) l2 ->
    Permutation l1 l2 ->
    (forall a b, In a l1 -> In b l1 ->
                 document_id a = document_id b -> chunk_index a = chunk_index b ->
                 a = b) ->
    l1 = l2.
Proof.
  induction l1 as [|a t1 IH]; intros l2 H1 H2 Hp Hkey.
  - now apply Permutation_nil in Hp.
  - destruct l2 as [|b t2]; [symmetry in Hp; now apply Permutation_nil in Hp|].
    inversion H1 as [|? ? Ht1 Ha]; inversion H2 as [|? ? Ht2 Hb]; subst.
    assert (Hab : a = b).
    { assert (Hina : In a (b :: t2)) by (apply (Permutation_in _ Hp); now left).
      assert (Hinb : In b (a :: t1))
        by (apply (Permutation_in _ (Permutation_sym Hp)); now left).
      destruct Hina as [E|Hina]; [now symmetry|].
      destruct Hinb as [E|Hinb]; [exact E|].
      rewrite Forall_forall in Ha, Hb.
      pose proof (Ha b Hinb) as Le1. pose proof (Hb a Hina) as Le2.
      apply key_leb_spec in Le1, Le2.
      apply Hkey; [now left | now right | |].
      - destruct Le1 as [Lt1|[E _]]; [|exact E].
        destruct Le2 as [Lt2|[E _]]; [|now symmetry].
        rewrite (str_compare_antisym (document_id a) (document_id b)), Lt1 in Lt2.
        discriminate.
      - destruct Le1 as [Lt1|[E1 I1]]; destruct Le2 as [Lt2|[E2 I2]].
        + rewrite (str_compare_antisym (document_id a) (document_id b)), Lt1 in Lt2.
          discriminate.
        + rewrite E2, str_compare_refl in Lt1. discriminate.
        + rewrite E1, str_compare_refl in Lt2. discriminate.
        + lia. }
    subst b. f_equal. apply IH; try assumption.
    + now apply Permutation_cons_inv in Hp.
    + intros x y Hx Hy. apply Hkey; now right.
Qed.

(** X14: when no two of the chunk records share both document and chunk
    index, the context does not depend on the order in which the records
    were retrieved. *)
Theorem construct_context_order_independent (chunks chunks' : list Chunk) :
  Permutation chunks chunks' ->
  (forall a b, In a chunks -> In b chunks ->
               document_id a = document_id b -> chunk_index a = chunk_index b ->
               a = b) ->
  construct_context chunks = construct_context chunks'.
Proof.
  intros Hp Hkey. rewrite !construct_context_render.
  f_equal. f_equal. f_equal.
  apply sorted_permutation_unique; try apply sorted_by_key_sorted.
  - rewrite <- (sorted_by_key_perm chunks), <- (sorted_by_key_perm chunks').
    exact Hp.
  - intros a b Ha Hb. apply Hkey;
      eapply Permutation_in; try eassumption;
      symmetry; apply sorted_by_key_perm.
Qed.

Lemma construct_context_order_independent_witness :
  construct_context Demo.rows = construct_context (rev Demo.rows).
Proof.
  apply construct_context_order_independent.
  - apply Permutation_rev.
  - intros a b [<-|[<-|[]]] [<-|[<-|[]]]; try reflexivity; vm_compute; discriminate.
Defined.

Section AgentProperties.
Context {L : FaissLib}.

Lemma chunk_eta (c : Chunk) :
  {| chunk_id := chunk_id c; document_id := document_id c;
     content := content c; chunk_index := chunk_index c |} = c.
Proof. now destruct c. Qed.

(** X15: when the session works, [get_chunk_contents] returns rows of the
    table only; their chunk ids are the requested ids that have a row, in
    the order requested, the ids without a row being skipped; when the
    session raises it returns nothing. *)
Theorem get_chunk_contents_known_ids (e : Env L) (ids : list pystr) :
  match db_rows e with
  | None => get_chunk_contents e ids = []
  | Some rows =>
      map chunk_id (get_chunk_contents e ids)
      = filter (fun id => existsb (fun row => str_eqb (chunk_id row) id) rows) ids
      /\ Forall (fun c => In c rows) (get_chunk_contents e ids)
  end.
Proof.
  unfold get_chunk_contents. destruct (db_rows e) as [rows|]; [|reflexivity].
  induction ids as [|id ids [IH1 IH2]]; simpl; [split; [reflexivity | constructor]|].
  destruct (find (fun row => str_eqb (chunk_id row) id) rows) as [r|] eqn:Ef.
  - pose proof (find_some _ _ Ef) as [Hin Hid].
    replace (existsb (fun row => str_eqb (chunk_id row) id) rows) with true
      by (symmetry; apply existsb_exists; now exists r).
    rewrite chunk_eta. simpl. apply str_eqb_true in Hid.
    split; [now rewrite Hid, IH1 | now constructor].
  - replace (existsb (fun row => str_eqb (chunk_id row) id) rows) with false.
    + simpl. now split.
    + symmetry. apply not_true_is_false. intros Hex.
      apply existsb_exists in Hex as (r & Hin & Hid).
      pose proof (find_none _ _ Ef r Hin) as Hn. simpl in Hn. congruence.
Qed.

(** Failure or success of the agent is decided by the embedding alone. *)
Lemma answer_question_outcome (e : Env L) (q : pystr) :
  match embed_text e q with
  | inl msg => answer_question e q = Failure (lit "QA error: " ++ msg)
  | inr _ => success (answer_question e q) = true
  end.
Proof.
  unfold answer_question, embed_question.
  destruct (embed_text e q) as [msg|v]; [reflexivity|].
  destruct (retrieve_relevant_chunks e v None); [reflexivity|].
  now destruct (get_chunk_contents e (p :: l)).
Qed.

(** X16: [answer_question] reports failure exactly when embedding the
    question raises, with the message of that exception; errors of the
    index search, of the database and of the completion service never make
    it fail. *)
Theorem answer_question_fails_only_on_embedding (e : Env L) (q : pystr) :
  match embed_text e q with
  | inl msg => answer_question e q = Failure (lit "QA error: " ++ msg)
  | inr _ => success (answer_question e q) = true
  end.
Proof. exact (answer_question_outcome e q). Qed.

Lemma get_chunk_contents_length (e : Env L) (ids : list pystr) :
  (length (get_chunk_contents e ids) <= length ids)%nat.
Proof.
  unfold get_chunk_contents. destruct (db_rows e) as [rows|]; [|simpl; lia].
  induction ids as [|id ids IH]; simpl; [lia|].
  rewrite length_app.
  destruct (find (fun row => str_eqb (chunk_id row) id) rows); simpl; lia.
Qed.

Lemma retrieve_relevant_chunks_bound (e : Env L) (v : vec L) :
  flat_search_shape L ->
  Z.of_nat (length (retrieve_relevant_chunks e v None))
  <= Z.min Settings.TOP_K_RESULTS (get_total_vectors (faiss_service e)).
Proof.
  intros Hshape. unfold retrieve_relevant_chunks, search, get_total_vectors.
  destruct (index (faiss_service e)) as [ix|];
    [|simpl; unfold Settings.TOP_K_RESULTS; lia].
  assert (Hn : 0 <= ntotal ix) by (unfold ntotal; lia).
  destruct (Z.eqb_spec (ntotal ix) 0); [simpl; unfold Settings.TOP_K_RESULTS; lia|].
  destruct (flat_search L (d ix) (xb ix) (map (astype_float32 L) v)
              (Z.min Settings.TOP_K_RESULTS (ntotal ix))) as [[ds ls]|] eqn:Es;
    [|simpl; unfold Settings.TOP_K_RESULTS; lia].
  destruct (gather (metadata (faiss_service e)) ls) as [ids|] eqn:Eg;
    [|simpl; unfold Settings.TOP_K_RESULTS; lia].
  destruct (Hshape _ _ _ _ _ _ Es) as [_ Hl]. apply gather_length in Eg.
  unfold Settings.TOP_K_RESULTS in *.
  assert (Z.of_nat (length ids) <= Z.min 5 (ntotal ix)) by lia.
  destruct ids; [simpl; lia | assumption].
Qed.

(** X17: a response never lists more sources than the configured number of
    results (5), than the vectors in the index, or than the chunk records
    retrieved. *)
Theorem sources_bounded (e : Env L) (q : pystr) :
  flat_search_shape L ->
  set_iter_ok (set_iter e) ->
  let r := answer_question e q in
  Z.of_nat (length (sources r)) <= Settings.TOP_K_RESULTS
  /\ Z.of_nat (length (sources r)) <= get_total_vectors (faiss_service e)
  /\ (length (sources r) <= length (retrieved_chunks e q))%nat.
Proof.
  intros Hshape Hset r.
  assert (Hr : (length (sources r) <= length (retrieved_chunks e q))%nat).
  { pose proof (answer_question_shape e q) as Hs. fold r in Hs.
    destruct r as [a srcs n used|msg]; simpl; [|lia].
    destruct Hs as [_ [[_ ->]|[_ ->]]]; [simpl; lia|].
    destruct (Hset (map document_id (retrieved_chunks e q))) as [Hn Hi].
    rewrite <- (length_map document_id (retrieved_chunks e q)).
    apply NoDup_incl_length; [exact Hn | intros x Hx; now apply Hi]. }
  assert (Hc : Z.of_nat (length (retrieved_chunks e q))
               <= Z.min Settings.TOP_K_RESULTS (get_total_vectors (faiss_service e))).
  { unfold retrieved_chunks, embed_question.
    destruct (embed_text e q) as [msg|v].
    - simpl. unfold get_total_vectors, Settings.TOP_K_RESULTS.
      destruct (index (faiss_service e)); unfold ntotal; lia.
    - pose proof (retrieve_relevant_chunks_bound e v Hshape).
      pose proof (get_chunk_contents_length e (retrieve_relevant_chunks e v None)).
      lia. }
  lia.
Qed.



(** X19: in a 200 response of the ask endpoint [num_sources] is the length
    of [sources]; the confidence is ["low"] exactly when there is no source,
    which is exactly when no chunk record was retrieved, and ["high"]
    exactly when there are three sources or more. *)
Theorem ask_question_confidence (e : Env L) (request : Api.QuestionRequest)
    (body : Api.QuestionResponse) :
  set_iter_ok (set_iter e) ->
  Api.ask_question e request = Api.Http200 body ->
  Api.num_sources body = Z.of_nat (length (Api.sources body))
  /\ (Api.confidence body = lit "low" <-> Api.sources body = [])
  /\ (Api.sources body = [] <-> retrieved_chunks e (Api.question request) = [])
  /\ (Api.confidence body = lit "high" <-> (3 <= length (Api.sources body))%nat).
Proof.
  intros Hset H. unfold Api.ask_question in H.
  destruct (negb (truthy (Api.question request))
            || (len (strip (Api.question request)) =? 0)); [discriminate|].
  pose proof (answer_question_shape e (Api.question request)) as Hs.
  destruct (answer_question e (Api.question request)) as [a srcs n used|msg];
    [|discriminate].
  injection H as <-. simpl. destruct Hs as [Hn Hsrc].
  assert (Hempty : srcs = [] <-> retrieved_chunks e (Api.question request) = []).
  { destruct Hsrc as [[Hc ->]|[Hc ->]]; [tauto|].
    split; [|intros E; contradiction].
    intros E. destruct (retrieved_chunks e (Api.question request)) as [|c cs];
      [reflexivity|].
    destruct (Hset (map document_id (c :: cs))) as [_ Hi].
    rewrite E in Hi. exfalso. apply (Hi (document_id c)). now left. }
  split; [exact Hn|]. unfold Api.confidence_of. subst n.
  split; [|split; [exact Hempty|]].
  - destruct (Z.geb_spec (Z.of_nat (length srcs)) 3);
      [|destruct (Z.geb_spec (Z.of_nat (length srcs)) 1)].
    + split; [discriminate | intros ->; simpl in *; lia].
    + split; [discriminate | intros ->; simpl in *; lia].
    + split; [intros _; destruct srcs; [reflexivity | simpl in *; lia] | reflexivity].
  - destruct (Z.geb_spec (Z.of_nat (length srcs)) 3);
      [|destruct (Z.geb_spec (Z.of_nat (length srcs)) 1)].
    + split; [lia | reflexivity].
    + split; [discriminate | lia].
    + split; [discriminate | lia].
Qed.

End AgentProperties.

Lemma sources_bounded_witness :
  let r := answer_question Demo.env Demo.question in
  Z.of_nat (length (sources r)) <= Settings.TOP_K_RESULTS
  /\ Z.of_nat (length (sources r)) <= get_total_vectors (faiss_service Demo.env)
  /\ (length (sources r) <= length (retrieved_chunks Demo.env Demo.question))%nat.
Proof.
  apply (@sources_bounded Ref.lib Demo.env Demo.question).
  - exact ref_search_shape.
  - exact first_appearance_set_iter.
Defined.

Lemma ask_question_confidence_witness :
  let body :=
    {| Api.answer := construct_context (retrieved_chunks Demo.env Demo.question);
       Api.sources := [lit "doc_b"; lit "doc_a"];
       Api.num_sources := 2;
       Api.confidence := lit "medium" |} in
  Api.num_sources body = Z.of_nat (length (Api.sources body))
  /\ (Api.confidence body = lit "low" <-> Api.sources body = [])
  /\ (Api.sources body = []
      <-> retrieved_chunks Demo.env
            (Api.question {| Api.question := Demo.question; Api.max_sources := Some 5 |})
          = [])
  /\ (Api.confidence body = lit "high" <-> (3 <= length (Api.sources body))%nat).
Proof.
  apply (@ask_question_confidence Ref.lib Demo.env
           {| Api.question := Demo.question; Api.max_sources := Some 5 |}).
  - exact first_appearance_set_iter.
  - vm_compute. reflexivity.
Defined.

(** ** The indexing agent *)

Lemma uint_codes_inj (u v : Decimal.uint) : Indexing.uint_codes u = Indexing.uint_codes v -> u = v.
Proof.
  revert v. induction u; intros v H; destruct v; simpl in H;
    try discriminate; try reflexivity;
    injection H as H; f_equal; now apply IHu.
Qed.

Lemma str_of_nat_inj (n m : nat) : Indexing.str_of_nat n = Indexing.str_of_nat m -> n = m.
Proof.
  intros H. apply uint_codes_inj in H. now apply DecimalNat.Unsigned.to_uint_inj.
Qed.

Lemma make_chunk_id_inj (doc : pystr) (n m : nat) :
  Indexing.make_chunk_id doc n = Indexing.make_chunk_id doc m -> n = m.
Proof.
  unfold Indexing.make_chunk_id. intros H.
  apply app_inv_head in H. apply app_inv_head in H. now apply str_of_nat_inj.
Qed.

Lemma NoDup_map_injective {A B} (f : A -> B) (l : list A) :
  (forall x y, f x = f y -> x = y) -> NoDup l -> NoDup (map f l).
Proof.
  intros Hf. induction 1 as [|x l Hx Hl IH]; simpl; constructor; [|exact IH].
  intros Hin. apply in_map_iff in Hin as (y & Hy & Hyl).
  apply Hf in Hy. now subst.
Qed.

Lemma chunk_objects_from_fields (doc : pystr) (chunks : list pystr) :
  forall idx,
    let records := Indexing.chunk_objects_from idx doc chunks in
    map content records = chunks
    /\ map chunk_index records = map Z.of_nat (seq idx (length chunks))
    /\ map chunk_id records = map (Indexing.make_chunk_id doc) (seq idx (length chunks))
    /\ Forall (fun c => document_id c = doc) records.
Proof.
  induction chunks as [|c r IH]; intros idx; simpl.
  - repeat split. constructor.
  - destruct (IH (S idx)) as (H1 & H2 & H3 & H4).
    rewrite H1, H2, H3. repeat split. now constructor.
Qed.

(** What [chunk_document_text] makes of the chunks. *)
Lemma chunk_document_text_returns (text document_id : pystr) :
  exists chunks records,
    chunk_text (S (length text)) text (Some Settings.CHUNK_SIZE)
               (Some Settings.CHUNK_OVERLAP) = Some chunks
    /\ Indexing.chunk_document_text (S (length text)) text document_id = Some records
    /\ map content records = chunks
    /\ map chunk_index records = map Z.of_nat (seq 0 (length chunks))
    /\ Forall (fun c => QA.document_id c = document_id) records
    /\ NoDup (map chunk_id records).
Proof.
  destruct (chunk_loop_advancing text Settings.CHUNK_SIZE Settings.CHUNK_OVERLAP
              ltac:(unfold advancing, Settings.CHUNK_SIZE, Settings.CHUNK_OVERLAP; lia)
              (S (length text)) 0 [] ltac:(lia) ltac:(unfold len; lia))
    as (new & Hrun & _ & _).
  change ([] ++ new) with new in Hrun.
  assert (Hc : exists chunks,
             chunk_text (S (length text)) text (Some Settings.CHUNK_SIZE)
                        (Some Settings.CHUNK_OVERLAP) = Some chunks).
  { unfold chunk_text. destruct (negb (truthy text) || (len text =? 0));
      eexists; [reflexivity | exact Hrun]. }
  destruct Hc as (chunks & Hc).
  exists chunks, (Indexing.chunk_objects_from 0 document_id chunks).
  unfold Indexing.chunk_document_text. rewrite Hc.
  destruct (chunk_objects_from_fields document_id chunks 0) as (H1 & H2 & H3 & H4).
  repeat split; try assumption.
  rewrite H3. apply NoDup_map_injective; [apply make_chunk_id_inj | apply seq_NoDup].
Qed.

(** X20: with the configured window [chunk_document_text] returns on every
    text; its records carry the chunks of [chunk_text] in order, the
    positions 0, 1, 2, ... as chunk indices, the document id, and pairwise
    distinct chunk ids. *)
Theorem chunk_document_text_records (text document_id : pystr) :
  exists chunks records,
    chunk_text (S (length text)) text (Some Settings.CHUNK_SIZE)
               (Some Settings.CHUNK_OVERLAP) = Some chunks
    /\ Indexing.chunk_document_text (S (length text)) text document_id = Some records
    /\ map content records = chunks
    /\ map chunk_index records = map Z.of_nat (seq 0 (length chunks))
    /\ Forall (fun c => QA.document_id c = document_id) records
    /\ NoDup (map chunk_id records).
Proof. exact (chunk_document_text_returns text document_id). Qed.

Section IndexingProperties.
Context {L : FaissLib}.

Lemma attach_embeddings_records (embeddings : list (vec L)) (chunks : list Chunk) :
  forall idx l,
    Indexing.attach_embeddings embeddings idx chunks = inr l -> map fst l = chunks.
Proof.
  induction chunks as [|c r IH]; intros idx l H; simpl in H.
  - now injection H as <-.
  - destruct (nth_error embeddings idx); [|discriminate].
    destruct (Indexing.attach_embeddings embeddings (S idx) r) as [msg|done] eqn:E;
      [discriminate|].
    injection H as <-. simpl. f_equal. now apply (IH (S idx)).
Qed.

Lemma generate_embeddings_records (sv : Indexing.Services L) (chunks : list Chunk)
    (l : list (Chunk * vec L)) :
  Indexing.generate_embeddings sv chunks = inr l -> map fst l = chunks.
Proof.
  unfold Indexing.generate_embeddings. destruct chunks as [|c r].
  - now intros [= <-].
  - destruct (Indexing.embed_texts sv (map content (c :: r))); [discriminate|].
    apply attach_embeddings_records.
Qed.

Lemma world_eta (w : World L) : {| svc := svc w; disk := disk w |} = w.
Proof. now destruct w. Qed.

(** Storing a non-empty batch either changes nothing or appends it and
    writes the directory. *)
Lemma store_in_vector_db_cases (w : World L) (l : list (Chunk * vec L)) :
  l <> [] -> index (svc w) <> None ->
  Indexing.store_in_vector_db w l = (false, w)
  \/ exists w',
       Indexing.store_in_vector_db w l = (true, w')
       /\ Indexing.appended w w' (map chunk_id (map fst l)).
Proof.
  intros Hne Hix. unfold Indexing.store_in_vector_db.
  destruct l as [|p l']; [congruence|].
  unfold add_vectors.
  destruct (index (svc w)) as [ix|] eqn:Ei; [|congruence]. rewrite Ei.
  destruct (index_add ix (map (map (astype_float32 L)) (map snd (p :: l'))))
    as [ix'|] eqn:Ea.
  - right. unfold save_index. cbn [svc index]. eexists. split; [reflexivity|].
    exists ix, ix', (map (map (astype_float32 L)) (map snd (p :: l'))).
    cbn [svc index metadata disk].
    pose proof (index_add_rows _ _ _ Ea) as Hrows.
    unfold index_add in Ea. case_if_in Ea; [|discriminate]. injection Ea as <-.
    split; [exact Ei|]. split; [reflexivity|]. split; [reflexivity|].
    split; [exact Hrows|]. split; [now rewrite !length_map|].
    split; [now rewrite map_map | reflexivity].
  - left. now rewrite world_eta.
Qed.

Lemma appended_consistent (w w' : World L) (ids : list pystr) :
  consistent w -> Indexing.appended w w' ids -> consistent w'.
Proof.
  intros (_ & Hlen & _) (ix & ix' & rows & Hi & Hi' & _ & Hx & Hr & Hm & Hd).
  unfold consistent, vectors in *. rewrite Hi in Hlen. rewrite Hi'.
  repeat split; [discriminate | |].
  - rewrite Hx, Hm, !length_app. f_equal; assumption.
  - unfold disk_ok. rewrite Hd. cbn [index_file metadata_file].
    rewrite Hx, Hm, !length_app. f_equal; assumption.
Qed.

(** The outcomes of [index_document] on a service that holds an index. *)
Lemma index_document_cases (sv : Indexing.Services L) (sys : Indexing.System L)
    (text doc : pystr) :
  index (svc (Indexing.faiss sys)) <> None ->
  exists records,
    Indexing.chunk_document_text (S (length text)) text doc = Some records
    /\ ((exists err,
           Indexing.index_document (S (length text)) sv sys text doc
           = Some (Indexing.NotIndexed err, sys)
           /\ err <> lit "Failed to store metadata")
        \/ (exists w',
              records <> []
              /\ Indexing.appended (Indexing.faiss sys) w' (map chunk_id records)
              /\ ((Indexing.index_document (S (length text)) sv sys text doc
                   = Some (Indexing.NotIndexed (lit "Failed to store metadata"),
                           {| Indexing.faiss := w';
                              Indexing.document_chunks := Indexing.document_chunks sys |}))
                  \/ (Indexing.index_document (S (length text)) sv sys text doc
                      = Some (Indexing.Indexed (Z.of_nat (length records))
                                               (get_total_vectors (svc w')),
                              {| Indexing.faiss := w';
                                 Indexing.document_chunks :=
                                   Indexing.document_chunks sys ++ records |})
                      /\ Indexing.unique_ids
                           (map chunk_id (Indexing.document_chunks sys ++ records))
                         = true)))).
Proof.
  intros Hix.
  destruct (chunk_document_text_returns text doc)
    as (chunks & records & _ & Hrec & _).
  exists records. split; [exact Hrec|].
  unfold Indexing.index_document. rewrite Hrec.
  destruct records as [|c r].
  { left. eexists. split; [reflexivity | discriminate]. }
  destruct (Indexing.generate_embeddings sv (c :: r)) as [msg|l] eqn:Eg.
  { left. eexists. split; [reflexivity | discriminate]. }
  pose proof (generate_embeddings_records _ _ _ Eg) as Hfst.
  assert (Hl : l <> []) by (intros ->; discriminate).
  destruct (store_in_vector_db_cases (Indexing.faiss sys) l Hl Hix)
    as [Hs|(w' & Hs & Happ)]; rewrite Hs.
  { left. eexists. split; [f_equal; f_equal; now destruct sys | discriminate]. }
  right. exists w'. rewrite Hfst in Happ.
  split; [discriminate|]. split; [exact Happ|].
  unfold Indexing.store_chunk_metadata. rewrite Hfst.
  destruct (Indexing.database_up sv
            && Indexing.unique_ids
                 (map chunk_id (Indexing.document_chunks sys ++ c :: r))) eqn:Eu.
  - right. split; [reflexivity|]. now apply andb_true_iff in Eu as [_ Eu].
  - now left.
Qed.

(** X21: on a consistent index [index_document] returns for every text,
    and leaves the index consistent whatever the outcome: as many chunk ids
    as vectors, in memory and in the files. *)
Theorem index_document_keeps_consistent (sv : Indexing.Services L)
    (sys : Indexing.System L) (text doc : pystr) :
  consistent (Indexing.faiss sys) ->
  exists result sys',
    Indexing.index_document (S (length text)) sv sys text doc = Some (result, sys')
    /\ consistent (Indexing.faiss sys').
Proof.
  intros Hc. pose proof Hc as (Hix & _).
  destruct (index_document_cases sv sys text doc Hix)
    as (records & _ & [(err & H & _)|(w' & _ & Happ & [H|[H _]])]);
    rewrite H; do 2 eexists; (split; [reflexivity|]);
    [exact Hc | | ]; cbn [Indexing.faiss]; eapply appended_consistent; eassumption.
Qed.

(** X22: when [index_document] reports success, one record per chunk has
    been added to the table, their chunk ids have been appended to the
    index side-table in the same order with one vector each, index and
    chunk ids have been written to the directory, and the reported counts
    are the number of chunks and the new number of vectors. *)
Theorem index_document_indexed (sv : Indexing.Services L) (sys sys' : Indexing.System L)
    (text doc : pystr) (n total : Z) :
  index (svc (Indexing.faiss sys)) <> None ->
  Indexing.index_document (S (length text)) sv sys text doc
  = Some (Indexing.Indexed n total, sys') ->
  exists records,
    Indexing.chunk_document_text (S (length text)) text doc = Some records
    /\ records <> []
    /\ n = Z.of_nat (length records)
    /\ Indexing.document_chunks sys' = Indexing.document_chunks sys ++ records
    /\ Indexing.appended (Indexing.faiss sys) (Indexing.faiss sys') (map chunk_id records)
    /\ total = get_total_vectors (svc (Indexing.faiss sys')).
Proof.
  intros Hix H.
  destruct (index_document_cases sv sys text doc Hix)
    as (records & Hrec & [(err & H' & _)|(w' & Hne & Happ & [H'|[H' _]])]);
    rewrite H' in H; try discriminate.
  injection H as <- <- <-. exists records. repeat split; assumption.
Qed.


Lemma unique_ids_NoDup (ids : list pystr) : Indexing.unique_ids ids = true -> NoDup ids.
Proof.
  induction ids as [|x r IH]; simpl; [constructor|].
  intros H. apply andb_true_iff in H as [Hx Hr]. constructor; [|now apply IH].
  intros Hin. apply negb_true_iff in Hx.
  assert (existsb (str_eqb x) r = true)
    by (apply existsb_exists; exists x; split; [exact Hin | apply str_eqb_refl]).
  congruence.
Qed.

(** In a table with unique chunk ids the first row with the id of a row is
    that row. *)
Lemma find_unique_row (table : list Chunk) (r : Chunk) :
  NoDup (map chunk_id table) -> In r table ->
  find (fun row => str_eqb (chunk_id row) (chunk_id r)) table = Some r.
Proof.
  induction table as [|x t IH]; intros Hnd Hin; [contradiction|].
  simpl in *. inversion Hnd as [|? ? Hx Ht]; subst.
  destruct Hin as [->|Hin]; [now rewrite str_eqb_refl|].
  destruct (str_eqb (chunk_id x) (chunk_id r)) eqn:E; [|now apply IH].
  apply str_eqb_true in E. exfalso. apply Hx. rewrite E. now apply in_map.
Qed.

Lemma get_chunk_contents_rows (e : Env L) (table rows : list Chunk) :
  db_rows e = Some table ->
  NoDup (map chunk_id table) ->
  incl rows table ->
  get_chunk_contents e (map chunk_id rows) = rows.
Proof.
  intros Hdb Hnd Hincl. unfold get_chunk_contents. rewrite Hdb.
  induction rows as [|r rows IH]; simpl; [reflexivity|].
  rewrite (find_unique_row table r Hnd) by (apply Hincl; now left).
  rewrite chunk_eta. simpl. f_equal. apply IH.
  intros x Hx. apply Hincl. now right.
Qed.

(** X24: after a successful [index_document], looking up the chunk ids it
    appended to the index gives back exactly the records of the document,
    in order: every id the index can return for this document has its
    record. *)
Theorem index_then_lookup (sv : Indexing.Services L) (sys sys' : Indexing.System L)
    (text doc : pystr) (n total : Z) (e : Env L) :
  index (svc (Indexing.faiss sys)) <> None ->
  Indexing.index_document (S (length text)) sv sys text doc
  = Some (Indexing.Indexed n total, sys') ->
  db_rows e = Some (Indexing.document_chunks sys') ->
  exists records,
    Indexing.chunk_document_text (S (length text)) text doc = Some records
    /\ metadata (svc (Indexing.faiss sys'))
       = metadata (svc (Indexing.faiss sys)) ++ map chunk_id records
    /\ get_chunk_contents e (map chunk_id records) = records.
Proof.
  intros Hix H Hdb.
  destruct (index_document_cases sv sys text doc Hix)
    as (records & Hrec & [(err & H' & _)|(w' & Hne & Happ & [H'|[H' Hu]])]);
    rewrite H' in H; try discriminate.
  injection H as <- <- <-. exists records. split; [exact Hrec|]. split.
  - destruct Happ as (ix & ix' & rows & _ & _ & _ & _ & _ & Hm & _). exact Hm.
  - apply (get_chunk_contents_rows e _ records Hdb).
    + now apply unique_ids_NoDup.
    + intros x Hx. cbn [Indexing.document_chunks]. apply in_or_app. now right.
Qed.

End IndexingProperties.

Lemma index_document_keeps_consistent_witness :
  exists result sys',
    Indexing.index_document (S (length Indexing.Demo.text)) Indexing.Demo.services
      Indexing.Demo.empty_system Indexing.Demo.text Indexing.Demo.document
    = Some (result, sys')
    /\ consistent (Indexing.faiss sys').
Proof.
  apply (@index_document_keeps_consistent Ref.lib).
  unfold consistent. vm_compute. repeat split. discriminate.
Defined.

Lemma index_document_indexed_witness :
  exists records,
    Indexing.chunk_document_text (S (length Indexing.Demo.text)) Indexing.Demo.text
      Indexing.Demo.document = Some records
    /\ records <> []
    /\ 1 = Z.of_nat (length records)
    /\ Indexing.document_chunks Indexing.Demo.indexed_system
       = Indexing.document_chunks Indexing.Demo.empty_system ++ records
    /\ Indexing.appended (Indexing.faiss Indexing.Demo.empty_system)
         (Indexing.faiss Indexing.Demo.indexed_system) (map chunk_id records)
    /\ 1 = get_total_vectors (svc (Indexing.faiss Indexing.Demo.indexed_system)).
Proof.
  apply (@index_document_indexed Ref.lib Indexing.Demo.services).
  - vm_compute. discriminate.
  - vm_compute. reflexivity.
Defined.


Lemma index_then_lookup_witness :
  exists records,
    Indexing.chunk_document_text (S (length Indexing.Demo.text)) Indexing.Demo.text
      Indexing.Demo.document = Some records
    /\ metadata (svc (Indexing.faiss Indexing.Demo.indexed_system))
       = metadata (svc (Indexing.faiss Indexing.Demo.empty_system))
         ++ map chunk_id records
    /\ get_chunk_contents Indexing.Demo.reader (map chunk_id records) = records.
Proof.
  apply (@index_then_lookup Ref.lib Indexing.Demo.services Indexing.Demo.empty_system
           Indexing.Demo.indexed_system Indexing.Demo.text Indexing.Demo.document 1 1).
  - vm_compute. discriminate.
  - vm_compute. reflexivity.
  - reflexivity.
Defined.

(** ** Canned answers *)

Section CannedAnswers.
Context {L : FaissLib}.

(** X25: on an index without vectors, as after [reset_index], every
    question whose embedding succeeds gets the successful response with the
    no-information answer, no source and [num_sources = 0]. *)
Theorem answer_on_empty_index (e : Env L) (q : pystr) (v : vec L) :
  get_total_vectors (faiss_service e) = 0 ->
  embed_text e q = inr v ->
  answer_question e q = Success no_information [] 0 None.
Proof.
  intros H0 Hv. unfold answer_question, embed_question. rewrite Hv.
  unfold retrieve_relevant_chunks, search. unfold get_total_vectors in H0.
  destruct (index (faiss_service e)) as [ix|]; [|reflexivity].
  now rewrite H0.
Qed.

(** X26: when chunk records were retrieved and the completion service
    raises, the response is still a success: its answer is the apology, and
    its sources and counts are those of the retrieved records. *)
Theorem answer_when_completion_fails (e : Env L) (q : pystr) :
  retrieved_chunks e q <> [] ->
  generate_answer_from_context e q (construct_context (retrieved_chunks e q)) = None ->
  answer_question e q
  = Success apology
      (set_iter e (map document_id (retrieved_chunks e q)))
      (Z.of_nat (length (set_iter e (map document_id (retrieved_chunks e q)))))
      (Some (Z.of_nat (length (retrieved_chunks e q)))).
Proof.
  unfold answer_question, retrieved_chunks, generate_answer.
  destruct (embed_question L e q) as [msg|v]; [congruence|].
  destruct (retrieve_relevant_chunks e v None) as [|id ids].
  - rewrite get_chunk_contents_nil. congruence.
  - destruct (get_chunk_contents e (id :: ids)) as [|c cs]; [congruence|].
    intros _ ->. reflexivity.
Qed.

End CannedAnswers.

Lemma answer_on_empty_index_witness :
  answer_question Indexing.Demo.reader_after_reset Demo.question
  = Success no_information [] 0 None.
Proof.
  apply (@answer_on_empty_index Ref.lib Indexing.Demo.reader_after_reset
           Demo.question [len Demo.question; 1]); reflexivity.
Defined.

Lemma answer_when_completion_fails_witness :
  let e := Indexing.Demo.reader_without_completion in
  answer_question e Demo.question
  = Success apology
      (set_iter e (map document_id (retrieved_chunks e Demo.question)))
      (Z.of_nat (length (set_iter e (map document_id (retrieved_chunks e Demo.question)))))
      (Some (Z.of_nat (length (retrieved_chunks e Demo.question)))).
Proof.
  apply (@answer_when_completion_fails Ref.lib).
  - vm_compute. discriminate.
  - reflexivity.
Defined.
